(** * Solace: the page script [js/main.js]

    A shallow embedding of the script that animates the Solace page, and
    the properties of its three parts: the hero fade-in scheduled at
    page-ready, the scroll-triggered reveal driven by an intersection
    observer, and the smooth-scroll handler of the in-page links.

    The script is glue over host facilities (the document, timers, the
    intersection observer, the selector engine).  The host is modelled
    next to the script, as far as the script uses it:
    - strings are sequences of code units in the range 0..255;
    - numbers are idealised: [NaN] or an unbounded integer, and -0 is 0.
      The idealisation is exact for the delays that the host keeps as
      they are, from 0 to [maxTimeout] ms: there binary64 arithmetic is
      exact and the timeout is stored without loss.  The properties of
      a [data-delay] that speak of its value are stated within that
      range;
    - an element is a position in the document, in document order;
    - closures handed to the host are first-order values ([Handler],
      [ReadyListener]) interpreted by [runHandler] and [runReady]. *)

From Stdlib Require Import ZArith QArith Lia Ascii String List.
From stdpp Require Import base tactics option list strings.

Local Open Scope string_scope.
Local Open Scope Z_scope.
Local Open Scope list_scope.

(** ** Numbers and [parseInt] *)

Inductive Number : Type :=
| NaN
| Num (z : Z).

(** The product of two numbers, [a * b]: [NaN] is absorbing. *)
Definition times (a b : Number) : Number :=
  match a, b with
  | Num x, Num y => Num (x * y)
  | _, _ => NaN
  end.

Definition code (c : ascii) : Z := Z.of_N (N_of_ascii c).

(** White space and line terminators that [parseInt] skips: TAB, LF, VT,
    FF, CR, SP and NBSP are the ones below code unit 256. *)
Definition isStrWhiteSpace (c : ascii) : bool :=
  let n := code c in
  ((9 <=? n) && (n <=? 13)) || (n =? 32) || (n =? 160).

Fixpoint trimStart (s : string) : string :=
  match s with
  | String c r => if isStrWhiteSpace c then trimStart r else s
  | EmptyString => s
  end.

Definition digitValue (c : ascii) : option Z :=
  let n := code c in
  if (48 <=? n) && (n <=? 57) then Some (n - 48)
  else if (97 <=? n) && (n <=? 122) then Some (n - 87)
  else if (65 <=? n) && (n <=? 90) then Some (n - 55)
  else None.

Definition radixDigit (R : Z) (c : ascii) : option Z :=
  match digitValue c with
  | Some v => if v <? R then Some v else None
  | None => None
  end.

(** The longest prefix of [s] made of radix-[R] digits. *)
Fixpoint takeDigits (R : Z) (s : string) : list Z :=
  match s with
  | String c r =>
      match radixDigit R c with
      | Some v => v :: takeDigits R r
      | None => []
      end
  | EmptyString => []
  end.

Definition valueOf (R : Z) (ds : list Z) : Z :=
  fold_left (fun acc d => acc * R + d) ds 0.

(** [parseInt(string)] with no radix argument: skip leading white space,
    read a sign, read a [0x]/[0X] prefix (radix 16, otherwise 10), then
    the longest run of digits; no digit gives [NaN]. *)
Definition parseInt (input : string) : Number :=
  let S0 := trimStart input in
  let '(sign, S1) :=
    match S0 with
    | String "-"%char r => (-1, r)
    | String "+"%char r => (1, r)
    | _ => (1, S0)
    end in
  let '(R, S2) :=
    match S1 with
    | String "0"%char (String "x"%char r) => (16, r)
    | String "0"%char (String "X"%char r) => (16, r)
    | _ => (10, S1)
    end in
  match takeDigits R S2 with
  | [] => NaN
  | ds => Num (sign * valueOf R ds)
  end.

(** ** The document *)

Record Node : Type := mkNode {
  tagName : string;
  parentNode : option nat;
  attributes : list (string * string);
  classList : list string
}.

Abbreviation Document := (list Node).

Fixpoint assoc (name : string) (attrs : list (string * string)) : option string :=
  match attrs with
  | (k, v) :: rest => if String.eqb k name then Some v else assoc name rest
  | [] => None
  end.

(** [element.getAttribute(name)]: the value, or [None] for JavaScript's
    [null]. *)
Definition attributeOf (doc : Document) (element : nat) (name : string) : option string :=
  doc !! element ≫= fun n => assoc name (attributes n).

Definition contains (tokens : list string) (token : string) : bool :=
  existsb (String.eqb token) tokens.

Definition hasClass (doc : Document) (element : nat) (token : string) : bool :=
  match doc !! element with
  | Some n => contains (classList n) token
  | None => false
  end.

(** [DOMTokenList.add]: the token is appended unless already there. *)
Definition addToken (tokens : list string) (token : string) : list string :=
  if contains tokens token then tokens else tokens ++ [token].

Definition addClass (token : string) (n : Node) : Node :=
  mkNode (tagName n) (parentNode n) (attributes n) (addToken (classList n) token).

(** The proper ancestors of an element, nearest first.  [fuel] bounds the
    walk; the length of the document is enough for a tree. *)
Fixpoint ancestors (doc : Document) (fuel : nat) (element : nat) : list nat :=
  match fuel with
  | O => []
  | S fuel' =>
      match doc !! element ≫= parentNode with
      | Some p => p :: ancestors doc fuel' p
      | None => []
      end
  end.

(** ** Selectors *)

(** The selectors the script writes as literals. *)
Inductive Simple : Type :=
| ClassSel (token : string)            (* .token *)
| TypeSel (name : string)              (* name *)
| AttrPrefix (name prefix : string).   (* [name^="prefix"] *)

Inductive Selector : Type :=
| Compound (parts : list Simple)
| Descendant (ancestor : Selector) (parts : list Simple).  (* ancestor parts *)

Definition matchesSimple (n : Node) (s : Simple) : bool :=
  match s with
  | ClassSel token => contains (classList n) token
  | TypeSel name => String.eqb (tagName n) name
  | AttrPrefix name p =>
      match assoc name (attributes n) with
      | Some v => String.prefix p v
      | None => false
      end
  end.

Definition matchesCompound (doc : Document) (parts : list Simple) (element : nat) : bool :=
  match doc !! element with
  | Some n => forallb (matchesSimple n) parts
  | None => false
  end.

Fixpoint matches (doc : Document) (sel : Selector) (element : nat) : bool :=
  match sel with
  | Compound parts => matchesCompound doc parts element
  | Descendant anc parts =>
      matchesCompound doc parts element
      && existsb (matches doc anc) (ancestors doc (length doc) element)
  end.

(** The elements matching a selector, in document order. *)
Definition selectAll (doc : Document) (sel : Selector) : list nat :=
  filter (fun element => matches doc sel element = true) (seq 0 (length doc)).

(** ** Selectors given as text

    The click handler hands the link's [href] to [document.querySelector]
    as selector text.  Three forms are told apart: [#] followed by a plain
    identifier (letters, digits, [_], [-], not starting with a digit) is an
    id selector; [#] alone, or followed by a digit, is not a selector and
    makes the engine throw; any other text is left to the host's engine,
    of which nothing is assumed ([SelectorEngine]). *)

Inductive SelectorForm : Type :=
| IdSelector (ident : string)
| InvalidSelector
| OtherSelector.

Definition isDigit (c : ascii) : bool :=
  let n := code c in (48 <=? n) && (n <=? 57).

Definition isNameStart (c : ascii) : bool :=
  let n := code c in
  ((97 <=? n) && (n <=? 122)) || ((65 <=? n) && (n <=? 90)) || (n =? 95).

Definition isNameChar (c : ascii) : bool :=
  isNameStart c || isDigit c || (code c =? 45).

Fixpoint allNameChars (s : string) : bool :=
  match s with
  | String c r => isNameChar c && allNameChars r
  | EmptyString => true
  end.

Definition isPlainIdent (s : string) : bool :=
  match s with
  | String c r =>
      if isNameStart c then allNameChars r
      else if code c =? 45 then
        match r with
        | String c' r' => isNameStart c' && allNameChars r'
        | EmptyString => false
        end
      else false
  | EmptyString => false
  end.

Definition selectorForm (text : string) : SelectorForm :=
  match text with
  | String "#"%char rest =>
      match rest with
      | EmptyString => InvalidSelector
      | String c _ =>
          if isDigit c then InvalidSelector
          else if isPlainIdent rest then IdSelector rest
          else OtherSelector
      end
  | _ => OtherSelector
  end.

(** ** Completions, and the state of the page *)

Inductive Exn : Type :=
| SyntaxError.

Inductive Completion (A : Type) : Type :=
| Normal (a : A)
| Throw (e : Exn).
Arguments Normal {A} a.
Arguments Throw {A} e.

(** What the host's engine answers on selector text the model does not
    read itself. *)
Class SelectorEngine : Type :=
  resolveOther : Document -> string -> Completion (option nat).

Record ObserverOptions : Type := mkOptions {
  root : option nat;
  rootMargin : string;
  threshold : Q
}.

Record Entry : Type := mkEntry {
  target : nat;
  isIntersecting : bool
}.

(** The two closures given to [setTimeout]: the one of the hero loop and
    the one of [handleIntersection]; [element] is the captured variable. *)
Inductive Handler : Type :=
| HeroReveal (element : nat)
| DelayedReveal (element : nat).

(** A pending timer: the closure, the delay as passed to [setTimeout], and
    the time from which the host may run it. *)
Record Timer : Type := mkTimer {
  handler : Handler;
  timeout : Number;
  due : Z
}.

(** The three listeners of [DOMContentLoaded], in the order of the file. *)
Inductive ReadyListener : Type :=
| HeroFadeIn
| ObserveScrollFade
| SmoothScrollLinks.

(** Calls into the host that leave no state behind in the script. *)
Inductive Output : Type :=
| DefaultPrevented (link : nat)
| ScrolledIntoView (element : nat) (behavior block : string)
| Reported (e : Exn).           (* an exception that no one caught *)

Record Page : Type := mkPage {
  document : Document;
  observationTargets : list nat;   (* of [scrollObserver] *)
  queuedEntries : list Entry;      (* of [scrollObserver] *)
  timers : list Timer;
  now : Z;                         (* milliseconds *)
  readyListeners : list ReadyListener;
  clickListeners : list nat;       (* one per [addEventListener('click')] *)
  outputs : list Output
}.

Definition withDocument (d : Document) (p : Page) : Page :=
  mkPage d (observationTargets p) (queuedEntries p) (timers p) (now p)
         (readyListeners p) (clickListeners p) (outputs p).
Definition withTargets (ts : list nat) (p : Page) : Page :=
  mkPage (document p) ts (queuedEntries p) (timers p) (now p)
         (readyListeners p) (clickListeners p) (outputs p).
Definition withQueue (q : list Entry) (p : Page) : Page :=
  mkPage (document p) (observationTargets p) q (timers p) (now p)
         (readyListeners p) (clickListeners p) (outputs p).
Definition withTimers (ts : list Timer) (p : Page) : Page :=
  mkPage (document p) (observationTargets p) (queuedEntries p) ts (now p)
         (readyListeners p) (clickListeners p) (outputs p).
Definition withNow (t : Z) (p : Page) : Page :=
  mkPage (document p) (observationTargets p) (queuedEntries p) (timers p) t
         (readyListeners p) (clickListeners p) (outputs p).
Definition withReady (ls : list ReadyListener) (p : Page) : Page :=
  mkPage (document p) (observationTargets p) (queuedEntries p) (timers p) (now p)
         ls (clickListeners p) (outputs p).
Definition withClick (ls : list nat) (p : Page) : Page :=
  mkPage (document p) (observationTargets p) (queuedEntries p) (timers p) (now p)
         (readyListeners p) ls (outputs p).
Definition withOutputs (os : list Output) (p : Page) : Page :=
  mkPage (document p) (observationTargets p) (queuedEntries p) (timers p) (now p)
         (readyListeners p) (clickListeners p) os.

(** ** The monad of the script: state and exceptions *)

Definition JS (A : Type) : Type := Page -> Completion A * Page.

Definition ret {A} (a : A) : JS A := fun p => (Normal a, p).

Definition bind {A B} (m : JS A) (k : A -> JS B) : JS B :=
  fun p =>
    match m p with
    | (Normal a, p') => k a p'
    | (Throw e, p') => (Throw e, p')
    end.

Notation "'let*' x ':=' m 'in' k" := (bind m (fun x => k))
  (at level 10, x name, m at level 100, k at level 200).
Notation "m ';;' k" := (bind m (fun _ => k))
  (at level 100, k at level 200, right associativity).

(** [list.forEach(function (x) { ... })] *)
Fixpoint forEach {A} (l : list A) (f : A -> JS unit) : JS unit :=
  match l with
  | x :: r => f x ;; forEach r f
  | [] => ret tt
  end.

(** [list.forEach(function (x, index) { ... })], counting from [index]. *)
Fixpoint forEachFrom {A} (index : nat) (l : list A) (f : A -> nat -> JS unit) : JS unit :=
  match l with
  | x :: r => f x index ;; forEachFrom (S index) r f
  | [] => ret tt
  end.

(** *** Host operations *)

Definition querySelectorAll (sel : Selector) : JS (list nat) :=
  fun p => (Normal (selectAll (document p) sel), p).

Definition getAttribute (element : nat) (name : string) : JS (option string) :=
  fun p => (Normal (attributeOf (document p) element name), p).

(** [element.classList.add(token)] *)
Definition classListAdd (element : nat) (token : string) : JS unit :=
  fun p => (Normal tt, withDocument (alter (addClass token) element (document p)) p).

(** The delay the host waits for: [NaN] and negative delays count as 0. *)
Definition effectiveDelay (delay : Number) : Z :=
  match delay with
  | NaN => 0
  | Num z => Z.max 0 z
  end.

(** [setTimeout(handler, delay)]: a one-shot timer, appended to the
    pending ones. *)
Definition setTimeout (h : Handler) (delay : Number) : JS unit :=
  fun p =>
    (Normal tt,
     withTimers (timers p ++ [mkTimer h delay (now p + effectiveDelay delay)]) p).

(** [scrollObserver.observe(element)]: no effect on a target already
    observed. *)
Definition observe (element : nat) : JS unit :=
  fun p =>
    (Normal tt,
     if bool_decide (element ∈ observationTargets p) then p
     else withTargets (observationTargets p ++ [element]) p).

(** [observer.unobserve(element)] *)
Definition unobserve (element : nat) : JS unit :=
  fun p =>
    (Normal tt,
     withTargets (filter (fun t => t ≠ element) (observationTargets p)) p).

Definition addReadyListener (l : ReadyListener) : JS unit :=
  fun p => (Normal tt, withReady (readyListeners p ++ [l]) p).

Definition addClickListener (link : nat) : JS unit :=
  fun p => (Normal tt, withClick (clickListeners p ++ [link]) p).

Definition emit (o : Output) : JS unit :=
  fun p => (Normal tt, withOutputs (outputs p ++ [o]) p).

(** The first element, in document order, whose id is [ident]. *)
Definition elementById (doc : Document) (ident : string) : option nat :=
  head (filter (fun element => attributeOf doc element "id" = Some ident)
               (seq 0 (length doc))).

(** [document.querySelector(text)] *)
Definition querySelector `{SelectorEngine} (text : string) : JS (option nat) :=
  fun p =>
    match selectorForm text with
    | IdSelector ident => (Normal (elementById (document p) ident), p)
    | InvalidSelector => (Throw SyntaxError, p)
    | OtherSelector => (resolveOther (document p) text, p)
    end.

(** An argument that is [null] is read as the text [null]. *)
Definition toString (v : option string) : string :=
  match v with
  | Some s => s
  | None => "null"
  end.

(** ** The script *)

Section Script.
Context `{SelectorEngine}.

(** *** Part 1: hero fade-in on page load *)

(** ['.hero .fade-in'] *)
Definition heroSelector : Selector :=
  Descendant (Compound [ClassSel "hero"]) [ClassSel "fade-in"].

Definition heroFadeIn : JS unit :=
  let* heroElements := querySelectorAll heroSelector in
  forEachFrom 0 heroElements (fun element index =>
    setTimeout (HeroReveal element) (times (Num (Z.of_nat index)) (Num 200))).

(** *** Part 2: scroll-triggered animations *)

(** The options of the observer: the viewport as root, no margin, and a
    threshold of a tenth of the target's area.  The host reads them to
    decide when an entry is queued; the callback never does. *)
Definition observerOptions : ObserverOptions :=
  {| root := None; rootMargin := "0px"; threshold := 1 # 10 |}.

(** The function given to [entries.forEach] in [handleIntersection]. *)
Definition processEntry (entry : Entry) : JS unit :=
  if isIntersecting entry then
    let element := target entry in
    let* delay := getAttribute element "data-delay" in
    match delay with
    | Some delay =>
        let delayTime := times (parseInt delay) (Num 300) in
        setTimeout (DelayedReveal element) delayTime
    | None =>
        classListAdd element "visible"
    end ;;
    unobserve element
  else ret tt.

(** [handleIntersection(entries, observer)]; the observer is always the
    page's [scrollObserver], the only one the script creates. *)
Definition handleIntersection (entries : list Entry) : JS unit :=
  forEach entries processEntry.

(** ['.scroll-fade'] *)
Definition scrollFadeSelector : Selector := Compound [ClassSel "scroll-fade"].

Definition observeScrollFade : JS unit :=
  let* scrollElements := querySelectorAll scrollFadeSelector in
  forEach scrollElements (fun element => observe element).

(** *** Part 4: smooth scrolling for nav links *)

(** ['a[href^="#"]'] *)
Definition navLinkSelector : Selector :=
  Compound [TypeSel "a"; AttrPrefix "href" "#"].

(** The click listener; [this] is the link. *)
Definition onClick (this : nat) : JS unit :=
  emit (DefaultPrevented this) ;;
  let* targetId := getAttribute this "href" in
  let* targetSection := querySelector (toString targetId) in
  match targetSection with
  | Some section => emit (ScrolledIntoView section "smooth" "start")
  | None => ret tt
  end.

Definition smoothScrollLinks : JS unit :=
  let* navLinks := querySelectorAll navLinkSelector in
  forEach navLinks (fun link => addClickListener link).

(** *** The top level of the file *)

Definition main : JS unit :=
  addReadyListener HeroFadeIn ;;
  (* const scrollObserver = new IntersectionObserver(...): no target yet *)
  addReadyListener ObserveScrollFade ;;
  addReadyListener SmoothScrollLinks.

Definition runReady (l : ReadyListener) : JS unit :=
  match l with
  | HeroFadeIn => heroFadeIn
  | ObserveScrollFade => observeScrollFade
  | SmoothScrollLinks => smoothScrollLinks
  end.

(** The body of both timer closures. *)
Definition runHandler (h : Handler) : JS unit :=
  match h with
  | HeroReveal element => classListAdd element "visible"
  | DelayedReveal element => classListAdd element "visible"
  end.

(** ** The host's event loop *)

(** The host runs a callback to completion; an exception that escapes is
    reported and the page goes on. *)
Definition dispatch (m : JS unit) (p : Page) : Page :=
  match m p with
  | (Normal _, p') => p'
  | (Throw e, p') => withOutputs (outputs p' ++ [Reported e]) p'
  end.

(** A document just parsed, at time [t], before the script ran. *)
Definition blank (doc : Document) (t : Z) : Page :=
  mkPage doc [] [] [] t [] [] [].

(** The page once the script has run. *)
Definition boot (doc : Document) (t : Z) : Page :=
  dispatch main (blank doc t).

(** [DOMContentLoaded]: every listener runs, in order of registration. *)
Definition pageReady (p : Page) : Page :=
  fold_left (fun q l => dispatch (runReady l) q) (readyListeners p) p.

(** The page at page-ready, at time [t]. *)
Definition load (doc : Document) (t : Z) : Page := pageReady (boot doc t).

Inductive Event : Type :=
| Advance (dt : Z)                      (* time passes *)
| Fire (i : nat)                        (* the i-th pending timer runs *)
| Intersect (element : nat) (b : bool)  (* an entry is queued for a target *)
| Notify                                (* the queue is handed to the callback *)
| Click (link : nat).

(** One turn of the loop; [None] when the host cannot take it: time does
    not go back and a timer does not run before it is due.  The observer
    works as its standard describes: when the host recomputes the
    intersections, an entry is appended to the observer's queue for a
    target that is observed and whose state changed; entries pile up
    there until the notification task runs, which empties the queue and
    hands all of it to the callback.  [Click link] is the click event
    reaching [link], the element clicked or one of its ancestors: it runs
    the listeners that [link] has.  A click of the user is the sequence of
    these turns along the path from the element up ([userClick]). *)
Definition step (ev : Event) (p : Page) : option Page :=
  match ev with
  | Advance dt =>
      if 0 <=? dt then Some (withNow (now p + dt) p) else None
  | Fire i =>
      match timers p !! i with
      | Some t =>
          if due t <=? now p
          then Some (dispatch (runHandler (handler t)) (withTimers (delete i (timers p)) p))
          else None
      | None => None
      end
  | Intersect element b =>
      if bool_decide (element ∈ observationTargets p)
      then Some (withQueue (queuedEntries p ++ [mkEntry element b]) p)
      else None
  | Notify =>
      match queuedEntries p with
      | [] => None
      | entries => Some (dispatch (handleIntersection entries) (withQueue [] p))
      end
  | Click link =>
      if bool_decide (link < length (document p))%nat
      then Some (fold_left (fun q l => dispatch (onClick l) q)
                           (filter (fun l => l = link) (clickListeners p)) p)
      else None
  end.

Fixpoint run (evs : list Event) (p : Page) : option Page :=
  match evs with
  | ev :: rest =>
      match step ev p with
      | Some p' => run rest p'
      | None => None
      end
  | [] => Some p
  end.

End Script.

(** * Reading pages and runs

    Observations used to state the properties, and the concrete pages of
    the examples. *)

(** The character of a decimal digit, and the numeral of a list of
    digits, most significant first. *)
Definition digitChar (d : Z) : ascii := ascii_of_N (Z.to_N (48 + d)).

Fixpoint numeral (ds : list Z) : string :=
  match ds with
  | d :: rest => String (digitChar d) (numeral rest)
  | [] => EmptyString
  end.

Definition revealed (p : Page) (element : nat) : bool :=
  hasClass (document p) element "visible".

Definition reveals (h : Handler) : nat :=
  match h with
  | HeroReveal element => element
  | DelayedReveal element => element
  end.

(** The timer of the hero element at position [i], set at time [t0]. *)
Definition heroTimer (t0 : Z) (i : nat) (element : nat) : Timer :=
  mkTimer (HeroReveal element) (Num (Z.of_nat i * 200)) (t0 + Z.of_nat i * 200).

(** The targets after [observe] was called on each element of [l]. *)
Definition observeAll (targets l : list nat) : list nat :=
  fold_left (fun ts e => if bool_decide (e ∈ ts) then ts else ts ++ [e]) l targets.

#[local] Instance Handler_eq_dec : EqDecision Handler.
Proof. solve_decision. Defined.

(** The intersecting entries of [entries] whose target is [element]. *)
Definition qualifying (element : nat) (entries : list Entry) : nat :=
  length (filter (fun entry => target entry = element /\ isIntersecting entry = true)
                 entries).

(** The pending timers set by [handleIntersection] for [element]. *)
Definition delayedFor (element : nat) (ts : list Timer) : nat :=
  length (filter (fun t => handler t = DelayedReveal element) ts).

(** The part of a page that clicks cannot change. *)
Definition core (p : Page) : Document * list nat * list Entry * list Timer * Z * list nat :=
  (document p, observationTargets p, queuedEntries p, timers p, now p, clickListeners p).

(** The states a run goes through, one per turn taken. *)
Fixpoint trace `{SelectorEngine} (evs : list Event) (p : Page) : list Page :=
  match evs with
  | ev :: rest =>
      match step ev p with
      | Some p' => p' :: trace rest p'
      | None => []
      end
  | [] => []
  end.

(** How many times [element] goes from not revealed to revealed along
    the states [l], starting from [prev]. *)
Fixpoint transitions (element : nat) (prev : Page) (l : list Page) : nat :=
  match l with
  | q :: rest =>
      ((if negb (revealed prev element) && revealed q element then 1 else 0)
       + transitions element q rest)%nat
  | [] => 0%nat
  end.

(** [e] is as the parser left it, no pending timer would reveal it and no
    queued entry qualifies for it. *)
Definition untouched (doc0 : Document) (e : nat) (p : Page) : Prop :=
  document p !! e = doc0 !! e
  /\ Forall (fun t => reveals (handler t) ≠ e) (timers p)
  /\ qualifying e (queuedEntries p) = 0%nat.

(** The notifications, along a run, whose batch holds a qualifying entry
    for [element]. *)
Fixpoint deliveries `{SelectorEngine} (element : nat) (evs : list Event) (p : Page) : nat :=
  match evs with
  | ev :: rest =>
      match step ev p with
      | Some p' =>
          ((match ev with
            | Notify =>
                if bool_decide (0 < qualifying element (queuedEntries p))%nat
                then 1 else 0
            | _ => 0
            end) + deliveries element rest p')%nat
      | None => 0%nat
      end
  | [] => 0%nat
  end.

(** [e] is not observed and no queued entry qualifies for it. *)
Definition settled (e : nat) (p : Page) : Prop :=
  (e ∉ observationTargets p) /\ qualifying e (queuedEntries p) = 0%nat.

(** An engine that reads id selectors only, for closed examples. *)
#[local] Instance idOnlyEngine : SelectorEngine := fun _ _ => Throw SyntaxError.

(** A page whose hero paragraph is also a scroll-fade element. *)
Definition overlapPage : Document :=
  [ mkNode "section" None [] ["hero"];
    mkNode "p" (Some 0%nat) [] ["fade-in"; "scroll-fade"] ].

(** A page with one delayed scroll-fade box. *)
Definition genreBox : Document :=
  [ mkNode "div" None [("data-delay", "1")] ["scroll-fade"] ].

(** A hero section with a title and a tagline. *)
Definition heroPage : Document :=
  [ mkNode "section" None [] ["hero"];
    mkNode "h1" (Some 0%nat) [] ["fade-in"];
    mkNode "p" (Some 0%nat) [] ["fade-in"] ].

(** A scroll-fade box with no delay. *)
Definition plainBox : Document :=
  [ mkNode "div" None [] ["scroll-fade"] ].

(** A scroll-fade box whose delay is not a number. *)
Definition oddBox : Document :=
  [ mkNode "div" None [("data-delay", "soon")] ["scroll-fade"] ].

(** A link to nowhere. *)
Definition hashLink : Document :=
  [ mkNode "a" None [("href", "#")] [] ].

(** Three genre boxes with delays 0, 1 and 2, and a box with none. *)
Definition genrePage : Document :=
  [ mkNode "div" None [("data-delay", "0")] ["scroll-fade"];
    mkNode "div" None [("data-delay", "1")] ["scroll-fade"];
    mkNode "div" None [("data-delay", "2")] ["scroll-fade"];
    mkNode "div" None [] ["scroll-fade"] ].

(** An event that is not a click. *)
Definition notClick (ev : Event) : bool :=
  match ev with
  | Click _ => false
  | _ => true
  end.

(** The same page with other page-ready listeners and other outputs. *)
Definition reframe (ls : list ReadyListener) (os : list Output) (p : Page) : Page :=
  withOutputs os (withReady ls p).

(** Each node of [doc'] is the node of [doc] at the same place, as it was
    or with ['visible'] added. *)
Definition onlyReveals (doc doc' : Document) : Prop :=
  length doc' = length doc
  /\ forall (e : nat) (n : Node),
       doc !! e = Some n ->
       doc' !! e = Some n \/ doc' !! e = Some (addClass "visible" n).

(** The elements that the pending timers [ts] will reveal. *)
Definition awaited (ts : list Timer) : list nat :=
  (fun t => reveals (handler t)) <$> ts.

(** The time of the first notification, along a run, whose batch holds a
    qualifying entry for [e]. *)
Fixpoint seenAt `{SelectorEngine} (e : nat) (evs : list Event) (p : Page) : option Z :=
  match evs with
  | ev :: rest =>
      match step ev p with
      | Some p' =>
          match ev with
          | Notify =>
              if bool_decide (0 < qualifying e (queuedEntries p))%nat
              then Some (now p)
              else seenAt e rest p'
          | _ => seenAt e rest p'
          end
      | None => None
      end
  | [] => None
  end.

(** The delay that the host applies to the reveal of [e]: that of its
    [data-delay] times 300, with [NaN] and negative delays counting as 0,
    and none when the attribute is absent. *)
Definition delayOf (doc : Document) (e : nat) : Z :=
  match attributeOf doc e "data-delay" with
  | Some s => effectiveDelay (times (parseInt s) (Num 300))
  | None => 0
  end.

(** From time [T + D] on, and not before: the pending timers that would
    reveal [e] are due then at the earliest, [e] is revealed only if that
    time has come, and [e] is out of the observer's reach. *)
Definition notBefore (e : nat) (T D : Z) (p : Page) : Prop :=
  Forall (fun t => reveals (handler t) = e -> T + D <= due t) (timers p)
  /\ (revealed p e = true -> T + D <= now p)
  /\ settled e p.

(** The largest delay the host keeps as it is given: timeouts are stored
    as signed 32-bit numbers of milliseconds. *)
Definition maxTimeout : Z := 2147483647.

(** The host's reading of a delay as a signed 32-bit integer, and the
    delay it then waits for.  Between [- 2^31] and [maxTimeout] this is
    [effectiveDelay], and products of integers are exact in binary64
    there (see [effectiveDelay_hostDelay]); the properties that speak of
    the value of a delay are stated within that range. *)
Definition toLong (z : Z) : Z :=
  let m := z mod 4294967296 in
  if m <? 2147483648 then m else m - 4294967296.

Definition hostDelay (delay : Number) : Z :=
  match delay with
  | NaN => 0
  | Num z => Z.max 0 (toLong z)
  end.

(** The elements of the document that a click on [x] reaches on its way
    up: [x], then its ancestors, nearest first. *)
Definition propagationPath (doc : Document) (x : nat) : list nat :=
  filter (fun a => (a < length doc)%nat) (x :: ancestors doc (length doc) x).

(** A click of the user on [x]: the event is dispatched at each element
    of the path in turn. *)
Definition userClick (doc : Document) (x : nat) : list Event :=
  map Click (propagationPath doc x).

(** A hero paragraph that is also a scroll-fade element with a delay. *)
Definition delayedHero : Document :=
  [ mkNode "section" None [] ["hero"];
    mkNode "p" (Some 0%nat) [("data-delay", "5")] ["fade-in"; "scroll-fade"] ].

(** A link with a span in it, and its target. *)
Definition spanInLink : Document :=
  [ mkNode "a" None [("href", "#top")] [];
    mkNode "span" (Some 0%nat) [] [];
    mkNode "section" None [("id", "top")] [] ].

(** * Properties *)

(** ** Unfolding the host operations *)

Ltac js_unfold :=
  unfold processEntry, runHandler, bind, ret, getAttribute, setTimeout,
    classListAdd, unobserve, observe, emit, querySelectorAll in *.

(** ** Decimal numerals *)

Lemma digitChar_cases (d : Z) :
  0 <= d <= 9 ->
  d = 0 \/ d = 1 \/ d = 2 \/ d = 3 \/ d = 4 \/ d = 5 \/ d = 6 \/ d = 7 \/ d = 8 \/ d = 9.
Proof. lia. Qed.

Ltac each_digit d Hd :=
  destruct (digitChar_cases d Hd)
    as [->|[->|[->|[->|[->|[->|[->|[->|[->| ->]]]]]]]]].

Lemma takeDigits_numeral (ds : list Z) :
  Forall (fun d => 0 <= d <= 9) ds -> takeDigits 10 (numeral ds) = ds.
Proof.
  induction 1 as [|d ds Hd _ IH]; [reflexivity|].
  cbn [numeral takeDigits].
  assert (Hr : radixDigit 10 (digitChar d) = Some d) by (each_digit d Hd; reflexivity).
  now rewrite Hr, IH.
Qed.

(** A delay index written in decimal reads as its value. *)
Lemma parseInt_numeral (ds : list Z) :
  ds ≠ [] ->
  Forall (fun d => 0 <= d <= 9) ds ->
  parseInt (numeral ds) = Num (valueOf 10 ds).
Proof.
  intros Hne Hall. destruct ds as [|d ds]; [contradiction|].
  pose proof (takeDigits_numeral _ Hall) as Htake.
  inversion Hall as [|? ? Hd Hds]; subst.
  assert (Hshape : parseInt (numeral (d :: ds)) =
                   match takeDigits 10 (numeral (d :: ds)) with
                   | [] => NaN
                   | ds' => Num (1 * valueOf 10 ds')
                   end).
  { destruct ds as [|d' ds].
    - each_digit d Hd; reflexivity.
    - inversion Hds as [|? ? Hd' _]; subst.
      each_digit d Hd; try reflexivity.
      each_digit d' Hd'; reflexivity. }
  rewrite Hshape, Htake. f_equal. lia.
Qed.

(** ** The callback, entry by entry *)

Lemma processEntry_away (entry : Entry) (p : Page) :
  isIntersecting entry = false -> processEntry entry p = (Normal tt, p).
Proof. intros Hb. unfold processEntry. now rewrite Hb. Qed.

Lemma processEntry_delayed (element : nat) (s : string) (p : Page) :
  attributeOf (document p) element "data-delay" = Some s ->
  processEntry (mkEntry element true) p =
    (Normal tt,
     withTargets (filter (fun t => t ≠ element) (observationTargets p))
       (withTimers
          (timers p ++ [mkTimer (DelayedReveal element)
                                (times (parseInt s) (Num 300))
                                (now p + effectiveDelay (times (parseInt s) (Num 300)))])
          p)).
Proof. intros Ha. js_unfold. cbn. now rewrite Ha. Qed.

Lemma processEntry_immediate (element : nat) (p : Page) :
  attributeOf (document p) element "data-delay" = None ->
  processEntry (mkEntry element true) p =
    (Normal tt,
     withTargets (filter (fun t => t ≠ element) (observationTargets p))
       (withDocument (alter (addClass "visible") element (document p)) p)).
Proof. intros Ha. js_unfold. cbn. now rewrite Ha. Qed.

Lemma processEntry_normal (entry : Entry) (p : Page) :
  (processEntry entry p).1 = Normal tt.
Proof.
  destruct entry as [element [|]].
  - destruct (attributeOf (document p) element "data-delay") as [s|] eqn:Ha.
    + now rewrite (processEntry_delayed _ _ _ Ha).
    + now rewrite (processEntry_immediate _ _ Ha).
  - now rewrite processEntry_away.
Qed.

Lemma forEach_cons {A} (x : A) (l : list A) (f : A -> JS unit) (p : Page) :
  (f x p).1 = Normal tt ->
  forEach (x :: l) f p = forEach l f (f x p).2.
Proof.
  intros Hn. cbn. unfold bind. destruct (f x p) as [c q]. cbn in *. now subst.
Qed.

Lemma handleIntersection_cons (entry : Entry) (entries : list Entry) (p : Page) :
  handleIntersection (entry :: entries) p =
  handleIntersection entries (processEntry entry p).2.
Proof. apply forEach_cons, processEntry_normal. Qed.

Lemma handleIntersection_nil (p : Page) : handleIntersection [] p = (Normal tt, p).
Proof. reflexivity. Qed.

Lemma handleIntersection_normal (entries : list Entry) (p : Page) :
  (handleIntersection entries p).1 = Normal tt.
Proof.
  revert p. induction entries as [|entry entries IH]; intros p.
  - reflexivity.
  - rewrite handleIntersection_cons. apply IH.
Qed.

Lemma dispatch_normal (m : JS unit) (p : Page) :
  (m p).1 = Normal tt -> dispatch m p = (m p).2.
Proof. unfold dispatch. destruct (m p) as [[[]|e] q]; cbn; congruence. Qed.

(** ** Adding a class *)

Lemma contains_addToken_same (tokens : list string) (token : string) :
  contains (addToken tokens token) token = true.
Proof.
  unfold addToken. destruct (contains tokens token) eqn:Hc; [exact Hc|].
  unfold contains. rewrite existsb_app. cbn. rewrite String.eqb_refl.
  now rewrite orb_true_r.
Qed.

Lemma contains_addToken_keeps (tokens : list string) (token other : string) :
  contains tokens other = true -> contains (addToken tokens token) other = true.
Proof.
  intros Hc. unfold addToken. destruct (contains tokens token); [exact Hc|].
  unfold contains in *. rewrite existsb_app, Hc. reflexivity.
Qed.

Lemma contains_addToken_other (tokens : list string) (token other : string) :
  other ≠ token -> contains (addToken tokens token) other = contains tokens other.
Proof.
  intros Hne. unfold addToken. destruct (contains tokens token); [reflexivity|].
  unfold contains. rewrite existsb_app. cbn.
  destruct (String.eqb_spec other token); [contradiction|].
  now rewrite !orb_false_r.
Qed.

Lemma hasClass_alter_same (doc : Document) (element : nat) (token : string) :
  (element < length doc)%nat ->
  hasClass (alter (addClass token) element doc) element token = true.
Proof.
  intros Hlt. unfold hasClass.
  destruct (lookup_lt_is_Some_2 doc element Hlt) as [n Hn].
  rewrite list_lookup_alter_eq, Hn. cbn. apply contains_addToken_same.
Qed.

Lemma hasClass_alter_keeps (doc : Document) (element e : nat) (token other : string) :
  hasClass doc e other = true ->
  hasClass (alter (addClass token) element doc) e other = true.
Proof.
  unfold hasClass. intros Hc.
  destruct (decide (element = e)) as [->|Hne].
  - rewrite list_lookup_alter_eq. destruct (doc !! e) as [n|]; [|discriminate].
    cbn. now apply contains_addToken_keeps.
  - now rewrite list_lookup_alter_ne.
Qed.

Lemma hasClass_alter_ne (doc : Document) (element e : nat) (token other : string) :
  element ≠ e ->
  hasClass (alter (addClass token) element doc) e other = hasClass doc e other.
Proof. intros Hne. unfold hasClass. now rewrite list_lookup_alter_ne. Qed.

(** ** Timers *)

(** Running a timer's closure adds ['visible'] to the captured element. *)
Lemma dispatch_runHandler (h : Handler) (p : Page) :
  dispatch (runHandler h) p =
  withDocument (alter (addClass "visible") (reveals h) (document p)) p.
Proof. destruct h; reflexivity. Qed.

Section Loop.
Context `{SelectorEngine}.

Lemma step_Fire_due (p : Page) (i : nat) (t : Timer) :
  timers p !! i = Some t ->
  due t <= now p ->
  step (Fire i) p =
    Some (withDocument (alter (addClass "visible") (reveals (handler t)) (document p))
            (withTimers (delete i (timers p)) p)).
Proof.
  intros Ht Hd. cbn. rewrite Ht.
  destruct (Z.leb_spec (due t) (now p)); [|lia].
  now rewrite dispatch_runHandler.
Qed.

Lemma step_Fire_early (p : Page) (i : nat) (t : Timer) :
  timers p !! i = Some t ->
  now p < due t ->
  step (Fire i) p = None.
Proof.
  intros Ht Hd. cbn. rewrite Ht.
  destruct (Z.leb_spec (due t) (now p)); [lia|reflexivity].
Qed.

Lemma step_Fire_inv (p p' : Page) (i : nat) :
  step (Fire i) p = Some p' ->
  exists t, timers p !! i = Some t /\ due t <= now p /\
    p' = withDocument (alter (addClass "visible") (reveals (handler t)) (document p))
           (withTimers (delete i (timers p)) p).
Proof.
  cbn. destruct (timers p !! i) as [t|] eqn:Ht; [|discriminate].
  destruct (Z.leb_spec (due t) (now p)); [|discriminate].
  rewrite dispatch_runHandler. intros [= <-]. eauto.
Qed.

End Loop.

(** ** The scroll-triggered reveal *)

(** C8. A notification for an element that is not intersecting changes
    nothing: the callback returns normally and leaves the whole page as it
    was, entry by entry and for a whole batch of such entries; in any
    batch, the entries that are not intersecting can be dropped without
    changing the outcome. *)
Theorem leaving_viewport_is_ignored :
  (forall (element : nat) (p : Page),
     processEntry (mkEntry element false) p = (Normal tt, p))
  /\ (forall (entries : list Entry) (p : Page),
        Forall (fun entry => isIntersecting entry = false) entries ->
        handleIntersection entries p = (Normal tt, p))
  /\ (forall (entries : list Entry) (p : Page),
        handleIntersection entries p =
        handleIntersection (List.filter isIntersecting entries) p).
Proof.
  split; [|split].
  - intros element p. now apply processEntry_away.
  - intros entries p Hall. induction Hall as [|entry entries Hb _ IH].
    + reflexivity.
    + rewrite handleIntersection_cons, (processEntry_away _ _ Hb). exact IH.
  - intros entries. induction entries as [|entry entries IH]; intros p.
    + reflexivity.
    + cbn [List.filter]. destruct (isIntersecting entry) eqn:Hb.
      * rewrite !handleIntersection_cons. apply IH.
      * rewrite handleIntersection_cons, (processEntry_away _ _ Hb). apply IH.
Qed.

(** ** Page-ready *)

Lemma withTimers_same (p : Page) : withTimers (timers p) p = p.
Proof. now destruct p. Qed.

Lemma forEachFrom_setTimeout (l : list nat) (k : nat) (p : Page) :
  forEachFrom k l (fun element index =>
    setTimeout (HeroReveal element) (times (Num (Z.of_nat index)) (Num 200))) p =
  (Normal tt,
   withTimers (timers p ++ imap (fun i => heroTimer (now p) (k + i)) l) p).
Proof.
  revert k p. induction l as [|x l IH]; intros k p.
  - cbn. unfold ret. now rewrite app_nil_r, withTimers_same.
  - cbn [forEachFrom]. unfold bind, setTimeout at 1. rewrite IH.
    destruct p as [doc ts q tm t rl cl os]. unfold withTimers. cbn.
    do 2 f_equal. rewrite <- app_assoc. f_equal. cbn. f_equal.
    + unfold heroTimer. rewrite Nat.add_0_r. f_equal. lia.
    + apply imap_ext. intros i y _. cbn.
      now replace (S (k + i))%nat with (k + S i)%nat by lia.
Qed.

Lemma heroFadeIn_eq (p : Page) :
  heroFadeIn p =
  (Normal tt,
   withTimers (timers p ++ imap (heroTimer (now p)) (selectAll (document p) heroSelector)) p).
Proof.
  unfold heroFadeIn, bind, querySelectorAll. now rewrite forEachFrom_setTimeout.
Qed.

Lemma forEach_observe (l : list nat) (p : Page) :
  forEach l (fun element => observe element) p =
  (Normal tt, withTargets (observeAll (observationTargets p) l) p).
Proof.
  revert p. induction l as [|x l IH]; intros p.
  - cbn. unfold ret. now destruct p.
  - cbn [forEach]. unfold bind, observe at 1. rewrite IH. f_equal.
    destruct p as [doc ts q tm t rl cl os]. cbn.
    now destruct (bool_decide (x ∈ ts)).
Qed.

Lemma forEach_addClickListener (l : list nat) (p : Page) :
  forEach l (fun link => addClickListener link) p =
  (Normal tt, withClick (clickListeners p ++ l) p).
Proof.
  revert p. induction l as [|x l IH]; intros p.
  - cbn. unfold ret. rewrite app_nil_r. now destruct p.
  - cbn [forEach]. unfold bind, addClickListener at 1. rewrite IH. f_equal.
    destruct p as [doc ts q tm t rl cl os]. unfold withClick. cbn.
    now rewrite <- app_assoc.
Qed.

Lemma boot_eq (doc : Document) (t0 : Z) :
  boot doc t0 =
  mkPage doc [] [] [] t0 [HeroFadeIn; ObserveScrollFade; SmoothScrollLinks] [] [].
Proof. reflexivity. Qed.

Lemma dispatch_runReady (l : ReadyListener) (p : Page) :
  dispatch (runReady l) p =
  match l with
  | HeroFadeIn =>
      withTimers (timers p ++ imap (heroTimer (now p))
                                   (selectAll (document p) heroSelector)) p
  | ObserveScrollFade =>
      withTargets (observeAll (observationTargets p)
                              (selectAll (document p) scrollFadeSelector)) p
  | SmoothScrollLinks =>
      withClick (clickListeners p ++ selectAll (document p) navLinkSelector) p
  end.
Proof.
  unfold dispatch. destruct l; cbn [runReady].
  - now rewrite heroFadeIn_eq.
  - unfold observeScrollFade, bind, querySelectorAll. now rewrite forEach_observe.
  - unfold smoothScrollLinks, bind, querySelectorAll.
    now rewrite forEach_addClickListener.
Qed.

(** The page at page-ready: the three listeners have run once each. *)
Lemma load_eq (doc : Document) (t0 : Z) :
  load doc t0 =
  mkPage doc
         (observeAll [] (selectAll doc scrollFadeSelector))
         []
         (imap (heroTimer t0) (selectAll doc heroSelector))
         t0
         [HeroFadeIn; ObserveScrollFade; SmoothScrollLinks]
         (selectAll doc navLinkSelector)
         [].
Proof.
  unfold load, pageReady. rewrite boot_eq. cbn [readyListeners fold_left].
  rewrite !dispatch_runReady. reflexivity.
Qed.

Lemma selectAll_NoDup (doc : Document) (sel : Selector) : NoDup (selectAll doc sel).
Proof. apply NoDup_filter, NoDup_seq. Qed.

Lemma selectAll_lt (doc : Document) (sel : Selector) (element : nat) :
  element ∈ selectAll doc sel -> (element < length doc)%nat.
Proof.
  unfold selectAll. rewrite list_elem_of_filter, elem_of_seq. lia.
Qed.

Lemma observeAll_fresh (l targets : list nat) :
  NoDup (targets ++ l) -> observeAll targets l = targets ++ l.
Proof.
  revert targets. induction l as [|x l IH]; intros targets Hnd.
  - cbn. now rewrite app_nil_r.
  - change (observeAll targets (x :: l))
      with (observeAll (if bool_decide (x ∈ targets) then targets else targets ++ [x]) l).
    apply NoDup_app in Hnd as (Hts & Hdisj & Hl).
    rewrite bool_decide_false by (intros Hin; apply (Hdisj x Hin); left).
    rewrite IH, <- app_assoc; [reflexivity|].
    rewrite <- app_assoc. cbn. apply NoDup_app. repeat split; auto.
Qed.

(** At page-ready the observer watches the [.scroll-fade] elements. *)
Lemma load_targets (doc : Document) (t0 : Z) :
  observationTargets (load doc t0) = selectAll doc scrollFadeSelector.
Proof.
  rewrite load_eq. cbn. apply (observeAll_fresh _ []). cbn. apply selectAll_NoDup.
Qed.

(** C4. At page-ready (time [t0]), the hero element at position [i] of
    the sequence ['.hero .fade-in'] has a timer set with a delay of exactly
    [i * 200] ms, the [i]-th of as many pending timers as there are hero
    elements; nothing is revealed by the listener itself.  The timer
    cannot run before [t0 + i * 200]; from then on the host can run it
    whatever the state of the observer, and running it reveals the
    element. *)
Theorem hero_stagger `{SelectorEngine}
    (doc : Document) (t0 : Z) (i : nat) (element : nat) :
  selectAll doc heroSelector !! i = Some element ->
  let t := mkTimer (HeroReveal element) (Num (Z.of_nat i * 200))
                   (t0 + Z.of_nat i * 200) in
  timers (load doc t0) !! i = Some t
  /\ length (timers (load doc t0)) = length (selectAll doc heroSelector)
  /\ document (load doc t0) = doc
  /\ (forall (q : Page) (j : nat),
        timers q !! j = Some t -> now q < t0 + Z.of_nat i * 200 ->
        step (Fire j) q = None)
  /\ (forall (q : Page) (j : nat),
        timers q !! j = Some t -> t0 + Z.of_nat i * 200 <= now q ->
        exists q', step (Fire j) q = Some q'
          /\ timers q' = delete j (timers q)
          /\ ((element < length (document q))%nat -> revealed q' element = true)).
Proof.
  intros Hi t. rewrite load_eq. cbn [timers document].
  split; [|split; [|split; [|split]]].
  - rewrite list_lookup_imap, Hi. reflexivity.
  - apply length_imap.
  - reflexivity.
  - intros q j Ht Hq. now apply (step_Fire_early q j t Ht).
  - intros q j Ht Hq. eexists. split; [|split].
    + now apply (step_Fire_due q j t Ht).
    + reflexivity.
    + intros Hlt. unfold revealed. cbn. now apply hasClass_alter_same.
Qed.

(** ** What a batch of entries changes *)

Ltac entry_cases entry p :=
  let element := fresh "element" in
  let s := fresh "s" in
  let Ha := fresh "Ha" in
  destruct entry as [element [|]];
  [ destruct (attributeOf (document p) element "data-delay") as [s|] eqn:Ha;
    [ rewrite (processEntry_delayed _ _ _ Ha)
    | rewrite (processEntry_immediate _ _ Ha) ]
  | rewrite (processEntry_away (mkEntry element false) p eq_refl) ].

Lemma qualifying_cons (element : nat) (entry : Entry) (entries : list Entry) :
  qualifying element (entry :: entries) =
  ((if bool_decide (target entry = element /\ isIntersecting entry = true)
    then 1 else 0) + qualifying element entries)%nat.
Proof.
  unfold qualifying. rewrite filter_cons.
  destruct (decide _) as [Hq|Hq].
  - now rewrite bool_decide_true.
  - now rewrite bool_decide_false.
Qed.

Lemma processEntry_queue (entry : Entry) (p : Page) :
  queuedEntries (processEntry entry p).2 = queuedEntries p
  /\ now (processEntry entry p).2 = now p
  /\ outputs (processEntry entry p).2 = outputs p
  /\ clickListeners (processEntry entry p).2 = clickListeners p.
Proof. entry_cases entry p; auto. Qed.

Lemma processEntry_targets (entry : Entry) (p : Page) :
  observationTargets (processEntry entry p).2 =
  if isIntersecting entry
  then filter (fun t => t ≠ target entry) (observationTargets p)
  else observationTargets p.
Proof. entry_cases entry p; reflexivity. Qed.

Lemma processEntry_grows (entry : Entry) (p : Page) (e : nat) (token : string) :
  hasClass (document p) e token = true ->
  hasClass (document (processEntry entry p).2) e token = true.
Proof.
  intros Hc. entry_cases entry p; cbn; auto. now apply hasClass_alter_keeps.
Qed.

Lemma processEntry_elsewhere (entry : Entry) (p : Page) (e : nat) :
  ~ (target entry = e /\ isIntersecting entry = true) ->
  document (processEntry entry p).2 !! e = document p !! e
  /\ exists new, timers (processEntry entry p).2 = timers p ++ new
       /\ Forall (fun t => reveals (handler t) ≠ e) new.
Proof.
  intros Hne. entry_cases entry p; cbn.
  - split; [reflexivity|]. eexists. split; [reflexivity|].
    constructor; [|constructor]. cbn. intros ->. now apply Hne.
  - split.
    + apply list_lookup_alter_ne. intros ->. now apply Hne.
    + exists []. now rewrite app_nil_r.
  - split; [reflexivity|]. exists []. now rewrite app_nil_r.
Qed.

Lemma attributeOf_addClass (doc : Document) (element e : nat) (token name : string) :
  attributeOf (alter (addClass token) element doc) e name = attributeOf doc e name.
Proof.
  unfold attributeOf. destruct (decide (element = e)) as [->|Hne].
  - rewrite list_lookup_alter_eq. now destruct (doc !! e).
  - now rewrite list_lookup_alter_ne.
Qed.

Lemma processEntry_attributes (entry : Entry) (p : Page) (e : nat) (name : string) :
  attributeOf (document (processEntry entry p).2) e name =
  attributeOf (document p) e name.
Proof. entry_cases entry p; cbn; auto using attributeOf_addClass. Qed.

Lemma processEntry_length (entry : Entry) (p : Page) :
  length (document (processEntry entry p).2) = length (document p).
Proof. entry_cases entry p; cbn; auto using length_alter. Qed.

(** One timer for each qualifying entry of a delayed element, none
    otherwise. *)
Lemma processEntry_delayedFor (entry : Entry) (p : Page) (e : nat) :
  delayedFor e (timers (processEntry entry p).2) =
  (delayedFor e (timers p) +
   match attributeOf (document p) e "data-delay" with
   | Some _ => qualifying e [entry]
   | None => 0
   end)%nat.
Proof.
  unfold delayedFor. rewrite qualifying_cons.
  replace (qualifying e []) with 0%nat by reflexivity.
  entry_cases entry p;
    cbn [snd timers withTargets withTimers withDocument target isIntersecting].
  - rewrite filter_app, length_app, filter_cons, filter_nil. cbn [handler].
    destruct (decide (element = e)) as [->|Hne].
    + rewrite Ha, decide_True by reflexivity. now rewrite bool_decide_true.
    + rewrite decide_False by congruence.
      rewrite bool_decide_false by (intros [? _]; contradiction).
      cbn. destruct (attributeOf (document p) e "data-delay"); lia.
  - destruct (decide (element = e)) as [->|Hne].
    + rewrite Ha. lia.
    + rewrite bool_decide_false by (intros [? _]; contradiction).
      cbn. destruct (attributeOf (document p) e "data-delay"); lia.
  - rewrite bool_decide_false by (intros [_ ?]; discriminate).
    cbn. destruct (attributeOf (document p) e "data-delay"); lia.
Qed.

Section Batch.
Variable P : Page -> Page -> Prop.
Hypothesis P_refl : forall p, P p p.
Hypothesis P_trans : forall p q r, P p q -> P q r -> P p r.
Hypothesis P_entry : forall entry p, P p (processEntry entry p).2.

(** A relation that every entry respects holds across a batch. *)
Lemma handleIntersection_preserves (entries : list Entry) (p : Page) :
  P p (handleIntersection entries p).2.
Proof.
  revert p. induction entries as [|entry entries IH]; intros p.
  - apply P_refl.
  - rewrite handleIntersection_cons. eapply P_trans; [apply P_entry|apply IH].
Qed.
End Batch.

Lemma handleIntersection_queue (entries : list Entry) (p : Page) :
  queuedEntries (handleIntersection entries p).2 = queuedEntries p
  /\ now (handleIntersection entries p).2 = now p
  /\ outputs (handleIntersection entries p).2 = outputs p
  /\ clickListeners (handleIntersection entries p).2 = clickListeners p.
Proof.
  apply (handleIntersection_preserves
    (fun p q => queuedEntries q = queuedEntries p /\ now q = now p
                /\ outputs q = outputs p /\ clickListeners q = clickListeners p)).
  - auto.
  - intros ? ? ? (-> & -> & -> & ->) (-> & -> & -> & ->). auto.
  - apply processEntry_queue.
Qed.

Lemma handleIntersection_grows (entries : list Entry) (p : Page) (e : nat) (token : string) :
  hasClass (document p) e token = true ->
  hasClass (document (handleIntersection entries p).2) e token = true.
Proof.
  apply (handleIntersection_preserves
    (fun p q => hasClass (document p) e token = true ->
                hasClass (document q) e token = true)); auto.
  intros. now apply processEntry_grows.
Qed.

Lemma handleIntersection_length (entries : list Entry) (p : Page) :
  length (document (handleIntersection entries p).2) = length (document p).
Proof.
  apply (handleIntersection_preserves
    (fun p q => length (document q) = length (document p))); try congruence.
  apply processEntry_length.
Qed.

Lemma handleIntersection_targets_incl (entries : list Entry) (p : Page) (e : nat) :
  e ∈ observationTargets (handleIntersection entries p).2 ->
  e ∈ observationTargets p.
Proof.
  apply (handleIntersection_preserves
    (fun p q => e ∈ observationTargets q -> e ∈ observationTargets p)); auto.
  intros entry q. rewrite processEntry_targets.
  destruct (isIntersecting entry); [|auto].
  rewrite list_elem_of_filter. tauto.
Qed.

Lemma handleIntersection_attributes (entries : list Entry) (p : Page) (e : nat) (name : string) :
  attributeOf (document (handleIntersection entries p).2) e name =
  attributeOf (document p) e name.
Proof.
  apply (handleIntersection_preserves
    (fun p q => attributeOf (document q) e name = attributeOf (document p) e name));
    try congruence.
  intros. apply processEntry_attributes.
Qed.

(** A batch with no qualifying entry for [e] leaves [e] alone and sets no
    timer that would reveal it. *)
Lemma handleIntersection_elsewhere (entries : list Entry) (p : Page) (e : nat) :
  qualifying e entries = 0%nat ->
  document (handleIntersection entries p).2 !! e = document p !! e
  /\ exists new, timers (handleIntersection entries p).2 = timers p ++ new
       /\ Forall (fun t => reveals (handler t) ≠ e) new.
Proof.
  revert p. induction entries as [|entry entries IH]; intros p Hq.
  - split; [reflexivity|]. exists []. now rewrite app_nil_r.
  - rewrite qualifying_cons in Hq. rewrite handleIntersection_cons.
    destruct (bool_decide_reflect (target entry = e /\ isIntersecting entry = true))
      as [Hyes|Hno]; [discriminate|].
    destruct (processEntry_elsewhere entry p e Hno) as (Hdoc & new1 & Ht1 & Hn1).
    destruct (IH (processEntry entry p).2 Hq) as (Hdoc2 & new2 & Ht2 & Hn2).
    split; [congruence|].
    exists (new1 ++ new2). split.
    + now rewrite Ht2, Ht1, app_assoc.
    + now apply Forall_app.
Qed.

(** A batch with a qualifying entry for [e] ends with [e] not observed. *)
Lemma handleIntersection_unobserves (entries : list Entry) (p : Page) (e : nat) :
  (0 < qualifying e entries)%nat ->
  e ∉ observationTargets (handleIntersection entries p).2.
Proof.
  revert p. induction entries as [|entry entries IH]; intros p Hq.
  - cbn in Hq. lia.
  - rewrite handleIntersection_cons. rewrite qualifying_cons in Hq.
    destruct (bool_decide_reflect (target entry = e /\ isIntersecting entry = true))
      as [[<- Hb]|Hno].
    + intros Hin. apply handleIntersection_targets_incl in Hin.
      rewrite processEntry_targets, Hb in Hin.
      apply list_elem_of_filter in Hin as [Hne _]. now apply Hne.
    + apply IH. lia.
Qed.

(** One timer per qualifying entry of a delayed element. *)
Lemma handleIntersection_delayedFor (entries : list Entry) (p : Page) (e : nat) :
  delayedFor e (timers (handleIntersection entries p).2) =
  (delayedFor e (timers p) +
   match attributeOf (document p) e "data-delay" with
   | Some _ => qualifying e entries
   | None => 0
   end)%nat.
Proof.
  revert p. induction entries as [|entry entries IH]; intros p.
  - cbn. destruct (attributeOf (document p) e "data-delay"); cbn; lia.
  - rewrite handleIntersection_cons, IH, processEntry_delayedFor,
      processEntry_attributes, (qualifying_cons e entry entries),
      (qualifying_cons e entry []).
    replace (qualifying e []) with 0%nat by reflexivity.
    destruct (attributeOf (document p) e "data-delay"); lia.
Qed.

(** ** The click listener *)

Section Clicks.
Context `{SelectorEngine}.

(** The listener calls [preventDefault] first, then looks the target up
    and scrolls to it when there is one; nothing else of the page moves. *)
Lemma onClick_eq (this : nat) (p : Page) :
  onClick this p =
  match querySelector (toString (attributeOf (document p) this "href"))
                      (withOutputs (outputs p ++ [DefaultPrevented this]) p) with
  | (Normal (Some section), q) =>
      (Normal tt, withOutputs (outputs q ++ [ScrolledIntoView section "smooth" "start"]) q)
  | (Normal None, q) => (Normal tt, q)
  | (Throw e, q) => (Throw e, q)
  end.
Proof.
  unfold onClick, bind, emit, getAttribute. cbn [document withOutputs].
  destruct (querySelector _ _) as [[[section|]|e] q]; reflexivity.
Qed.

Lemma querySelector_state (text : string) (p : Page) :
  (querySelector text p).2 = p.
Proof. unfold querySelector. now destruct (selectorForm text). Qed.

Lemma dispatch_onClick_core (this : nat) (p : Page) :
  core (dispatch (onClick this) p) = core p.
Proof.
  unfold dispatch. rewrite onClick_eq.
  pose proof (querySelector_state
    (toString (attributeOf (document p) this "href"))
    (withOutputs (outputs p ++ [DefaultPrevented this]) p)) as Hq.
  destruct (querySelector _ _) as [[[section|]|e] q]; cbn in Hq; subst q; reflexivity.
Qed.

Lemma clicks_core (links : list nat) (p : Page) :
  core (fold_left (fun q l => dispatch (onClick l) q) links p) = core p.
Proof.
  revert p. induction links as [|l links IH]; intros p; [reflexivity|].
  cbn [fold_left]. now rewrite IH, dispatch_onClick_core.
Qed.

Lemma step_Click_core (link : nat) (p p' : Page) :
  step (Click link) p = Some p' -> core p' = core p.
Proof.
  cbn. destruct (bool_decide _); [|discriminate].
  intros [= <-]. apply clicks_core.
Qed.

Lemma step_Notify_inv (p p' : Page) :
  step Notify p = Some p' ->
  queuedEntries p ≠ [] /\
  p' = (handleIntersection (queuedEntries p) (withQueue [] p)).2.
Proof.
  cbn. destruct (queuedEntries p) as [|entry entries] eqn:Hq; [discriminate|].
  intros [= <-]. split; [discriminate|].
  apply dispatch_normal, handleIntersection_normal.
Qed.

End Clicks.

(** ** Runs of the event loop *)

Section Runs.
Context `{SelectorEngine}.

Lemma step_Advance_inv (dt : Z) (p p' : Page) :
  step (Advance dt) p = Some p' -> 0 <= dt /\ p' = withNow (now p + dt) p.
Proof.
  cbn. destruct (Z.leb_spec 0 dt); [|discriminate]. now intros [= <-].
Qed.

Lemma step_Intersect_inv (element : nat) (b : bool) (p p' : Page) :
  step (Intersect element b) p = Some p' ->
  element ∈ observationTargets p
  /\ p' = withQueue (queuedEntries p ++ [mkEntry element b]) p.
Proof.
  cbn. destruct (bool_decide_reflect (element ∈ observationTargets p)); [|discriminate].
  now intros [= <-].
Qed.

(** No turn of the loop takes a class away. *)
Lemma step_grows (ev : Event) (p p' : Page) (e : nat) (token : string) :
  step ev p = Some p' ->
  hasClass (document p) e token = true ->
  hasClass (document p') e token = true.
Proof.
  intros Hstep Hc. destruct ev as [dt|i|element b| |link].
  - apply step_Advance_inv in Hstep as [_ ->]. exact Hc.
  - apply step_Fire_inv in Hstep as (t & _ & _ & ->). cbn.
    now apply hasClass_alter_keeps.
  - apply step_Intersect_inv in Hstep as [_ ->]. exact Hc.
  - apply step_Notify_inv in Hstep as [_ ->].
    now apply handleIntersection_grows.
  - apply step_Click_core in Hstep. unfold core in Hstep.
    injection Hstep as Hdoc _ _ _ _ _. now rewrite Hdoc.
Qed.

Lemma run_grows (evs : list Event) (p p' : Page) (e : nat) (token : string) :
  run evs p = Some p' ->
  hasClass (document p) e token = true ->
  hasClass (document p') e token = true.
Proof.
  revert p. induction evs as [|ev evs IH]; intros p Hrun Hc.
  - cbn in Hrun. now injection Hrun as <-.
  - cbn in Hrun. destruct (step ev p) as [q|] eqn:Hstep; [|discriminate].
    eapply IH; eauto using step_grows.
Qed.

Lemma transitions_revealed (element : nat) (evs : list Event) (p : Page) :
  revealed p element = true ->
  transitions element p (trace evs p) = 0%nat.
Proof.
  revert p. induction evs as [|ev evs IH]; intros p Hr; [reflexivity|].
  cbn [trace]. destruct (step ev p) as [q|] eqn:Hstep; [|reflexivity].
  cbn [transitions]. rewrite Hr. cbn.
  apply IH. unfold revealed in *. eauto using step_grows.
Qed.

End Runs.

(** C9. The revealed state is for good.  No turn of the event loop
    (time passing, a timer, a queued entry, a notification, a click)
    removes a class from an element, so along any run an element that is
    revealed stays revealed, and it goes from not revealed to revealed at
    most once; page-ready itself leaves the document as it was parsed. *)
Theorem revealed_is_forever `{SelectorEngine} :
  (forall (ev : Event) (p p' : Page) (element : nat) (token : string),
     step ev p = Some p' ->
     hasClass (document p) element token = true ->
     hasClass (document p') element token = true)
  /\ (forall (evs : list Event) (p p' : Page) (element : nat),
        run evs p = Some p' ->
        revealed p element = true -> revealed p' element = true)
  /\ (forall (evs : list Event) (p : Page) (element : nat),
        (transitions element p (trace evs p) <= 1)%nat)
  /\ (forall (doc : Document) (t0 : Z), document (load doc t0) = doc).
Proof.
  split; [|split; [|split]].
  - intros. eapply step_grows; eauto.
  - intros evs p p' element Hrun Hr. unfold revealed in *. eapply run_grows; eauto.
  - intros evs. induction evs as [|ev evs IH]; intros p element; [cbn; lia|].
    cbn [trace]. destruct (step ev p) as [q|] eqn:Hstep; [|cbn; lia].
    cbn [transitions].
    destruct (revealed p element) eqn:Hp; cbn [negb andb].
    + specialize (IH q element). lia.
    + destruct (revealed q element) eqn:Hq.
      * rewrite (transitions_revealed _ _ _ Hq). lia.
      * specialize (IH q element). lia.
  - intros doc t0. now rewrite load_eq.
Qed.

(** ** Elements that are never seen *)

Lemma qualifying_app (e : nat) (l1 l2 : list Entry) :
  qualifying e (l1 ++ l2) = (qualifying e l1 + qualifying e l2)%nat.
Proof. unfold qualifying. now rewrite filter_app, length_app. Qed.

Lemma core_eq (p q : Page) :
  core p = core q ->
  document p = document q /\ observationTargets p = observationTargets q
  /\ queuedEntries p = queuedEntries q /\ timers p = timers q /\ now p = now q.
Proof. unfold core. intros [= ? ? ? ? ? ?]. auto. Qed.

Section Unseen.
Context `{SelectorEngine}.

Lemma untouched_load (doc : Document) (t0 : Z) (e : nat) :
  e ∉ selectAll doc heroSelector -> untouched doc e (load doc t0).
Proof.
  intros He. rewrite load_eq. repeat split. cbn [timers].
  apply Forall_lookup. intros i t. rewrite list_lookup_imap.
  destruct (selectAll doc heroSelector !! i) as [x|] eqn:Hx; [|discriminate].
  intros [= <-]. cbn. intros ->. apply He. eapply list_elem_of_lookup_2; eauto.
Qed.

Lemma untouched_step (doc0 : Document) (e : nat) (ev : Event) (p p' : Page) :
  ev ≠ Intersect e true ->
  step ev p = Some p' ->
  untouched doc0 e p -> untouched doc0 e p'.
Proof.
  intros Hev Hstep (Hdoc & Htm & Hq). destruct ev as [dt|i|element b| |link].
  - apply step_Advance_inv in Hstep as [_ ->]. now repeat split.
  - apply step_Fire_inv in Hstep as (t & Ht & _ & ->). repeat split; cbn.
    + rewrite list_lookup_alter_ne; [exact Hdoc|].
      exact (proj1 (Forall_lookup _ _) Htm i t Ht).
    + now apply Forall_delete.
    + exact Hq.
  - apply step_Intersect_inv in Hstep as [_ ->]. repeat split; auto.
    cbn [queuedEntries withQueue].
    rewrite qualifying_app, Hq, qualifying_cons. cbn.
    rewrite bool_decide_false; [reflexivity|].
    intros [-> ->]. now apply Hev.
  - apply step_Notify_inv in Hstep as [_ ->].
    destruct (handleIntersection_elsewhere (queuedEntries p) (withQueue [] p) e Hq)
      as (Hd & new & Ht & Hnew).
    destruct (handleIntersection_queue (queuedEntries p) (withQueue [] p))
      as (Hqueue & _).
    repeat split.
    + now rewrite Hd.
    + rewrite Ht. apply Forall_app. split; [exact Htm|exact Hnew].
    + now rewrite Hqueue.
  - apply step_Click_core, core_eq in Hstep as (Hd' & _ & Hq' & Ht' & _).
    unfold untouched. rewrite Hd', Hq', Ht'. now repeat split.
Qed.

Lemma untouched_run (doc0 : Document) (e : nat) (evs : list Event) (p p' : Page) :
  Intersect e true ∉ evs ->
  run evs p = Some p' ->
  untouched doc0 e p -> untouched doc0 e p'.
Proof.
  revert p. induction evs as [|ev evs IH]; intros p Hevs Hrun Hu.
  - cbn in Hrun. now injection Hrun as <-.
  - cbn in Hrun. destruct (step ev p) as [q|] eqn:Hstep; [|discriminate].
    apply (IH q).
    + intros Hin. apply Hevs. now right.
    + exact Hrun.
    + eapply untouched_step; eauto. intros ->. apply Hevs. left.
Qed.

End Unseen.

(** C7, as stated, fails.  On [overlapPage] the paragraph is watched by
    the observer and starts without ['visible']; with no entry ever queued
    for it, the hero timer reveals it. *)
Lemma hero_overlap_revealed_unseen :
  observationTargets (load overlapPage 0) = [1%nat]
  /\ hasClass overlapPage 1 "visible" = false
  /\ option_map (fun p => revealed p 1) (run [Fire 0] (load overlapPage 0)) = Some true.
Proof. repeat split. Qed.

(** C7, amended. Along any run from page-ready, an element that is not
    one of the hero elements and for which no intersecting entry is ever
    queued is left exactly as it was parsed: no turn of the loop adds
    ['visible'] (or anything else) to it, so it is revealed at the end
    only if the markup already said so. *)
Theorem unseen_stays_hidden `{SelectorEngine}
    (doc : Document) (t0 : Z) (evs : list Event) (p : Page) (element : nat) :
  element ∉ selectAll doc heroSelector ->
  Intersect element true ∉ evs ->
  run evs (load doc t0) = Some p ->
  document p !! element = doc !! element
  /\ revealed p element = hasClass doc element "visible".
Proof.
  intros Hhero Hevs Hrun.
  destruct (untouched_run doc element evs _ _ Hevs Hrun (untouched_load doc t0 element Hhero))
    as (Hdoc & _).
  split; [exact Hdoc|]. unfold revealed, hasClass. now rewrite Hdoc.
Qed.

(** ** One batch per element *)

Section OneBatch.
Context `{SelectorEngine}.

(** Past page-ready nothing is added to the observer's targets. *)
Lemma step_targets_incl (ev : Event) (p p' : Page) (e : nat) :
  step ev p = Some p' ->
  e ∈ observationTargets p' -> e ∈ observationTargets p.
Proof.
  intros Hstep. destruct ev as [dt|i|element b| |link].
  - apply step_Advance_inv in Hstep as [_ ->]. auto.
  - apply step_Fire_inv in Hstep as (t & _ & _ & ->). auto.
  - apply step_Intersect_inv in Hstep as [_ ->]. auto.
  - apply step_Notify_inv in Hstep as [_ ->].
    apply handleIntersection_targets_incl.
  - apply step_Click_core, core_eq in Hstep as (_ & -> & _). auto.
Qed.

Lemma settled_step (e : nat) (ev : Event) (p p' : Page) :
  step ev p = Some p' -> settled e p -> settled e p'.
Proof.
  intros Hstep [Hobs Hq]. split.
  { intros Hin. apply Hobs. eapply step_targets_incl; eauto. }
  destruct ev as [dt|i|element b| |link].
  - apply step_Advance_inv in Hstep as [_ ->]. exact Hq.
  - apply step_Fire_inv in Hstep as (t & _ & _ & ->). exact Hq.
  - apply step_Intersect_inv in Hstep as [Hin ->]. cbn [queuedEntries withQueue].
    rewrite qualifying_app, Hq, qualifying_cons. cbn.
    rewrite bool_decide_false; [reflexivity|].
    intros [-> _]. contradiction.
  - apply step_Notify_inv in Hstep as [_ ->].
    destruct (handleIntersection_queue (queuedEntries p) (withQueue [] p)) as (-> & _).
    reflexivity.
  - apply step_Click_core, core_eq in Hstep as (_ & _ & -> & _). exact Hq.
Qed.

Lemma settled_deliveries (e : nat) (evs : list Event) (p : Page) :
  settled e p -> deliveries e evs p = 0%nat.
Proof.
  revert p. induction evs as [|ev evs IH]; intros p Hs; [reflexivity|].
  cbn [deliveries]. destruct (step ev p) as [q|] eqn:Hstep; [|reflexivity].
  rewrite (IH q) by (eapply settled_step; eauto).
  destruct ev; try reflexivity.
  destruct Hs as [_ ->]. reflexivity.
Qed.

Lemma deliveries_once (e : nat) (evs : list Event) (p : Page) :
  (deliveries e evs p <= 1)%nat.
Proof.
  revert p. induction evs as [|ev evs IH]; intros p; [cbn; lia|].
  cbn [deliveries]. destruct (step ev p) as [q|] eqn:Hstep; [|lia].
  specialize (IH q).
  destruct ev as [dt|i|element b| |link]; try lia.
  destruct (bool_decide_reflect (0 < qualifying e (queuedEntries p))%nat)
    as [Hpos|_]; [|lia].
  rewrite settled_deliveries; [lia|].
  apply step_Notify_inv in Hstep as [_ ->]. split.
  - now apply handleIntersection_unobserves.
  - destruct (handleIntersection_queue (queuedEntries p) (withQueue [] p)) as (-> & _).
    reflexivity.
Qed.

End OneBatch.

Lemma addClass_twice (token : string) (n : Node) :
  addClass token (addClass token n) = addClass token n.
Proof.
  unfold addClass. cbn. f_equal. unfold addToken at 1.
  now rewrite contains_addToken_same.
Qed.

(** C2, as stated, fails.  The box of [genreBox] enters, leaves and
    enters the viewport again before the queue is handed over: the one
    batch holds two intersecting entries for it, both are processed, and
    two timers are pending for the same element. *)
Lemma toggling_in_one_batch_sets_two_timers :
  option_map timers
    (run [Intersect 0 true; Intersect 0 false; Intersect 0 true; Notify]
         (load genreBox 0))
  = Some [ mkTimer (DelayedReveal 0) (Num 300) 300;
           mkTimer (DelayedReveal 0) (Num 300) 300 ].
Proof. reflexivity. Qed.

(** C2, amended.  Processing an intersecting entry stops the observation
    of its target at once, so along any run, from any state, at most one
    notification carries intersecting entries for a given element: later
    intersections produce no further reveal and no further timer.  Inside
    that one batch every intersecting entry is processed: a delayed
    element gets one timer per such entry (a single timer when the batch
    holds a single one), and adding ['visible'] a second time changes
    nothing. *)
Theorem qualifying_event_stops_observation `{SelectorEngine} :
  (forall (p : Page) (element : nat),
     element ∉ observationTargets (processEntry (mkEntry element true) p).2)
  /\ (forall (evs : list Event) (p : Page) (element : nat),
        (deliveries element evs p <= 1)%nat)
  /\ (forall (entries : list Entry) (p : Page) (element : nat),
        delayedFor element (timers (handleIntersection entries p).2) =
        (delayedFor element (timers p) +
         match attributeOf (document p) element "data-delay" with
         | Some _ => qualifying element entries
         | None => 0
         end)%nat)
  /\ (forall (doc : Document) (element : nat),
        alter (addClass "visible") element (alter (addClass "visible") element doc)
        = alter (addClass "visible") element doc).
Proof.
  split; [|split; [|split]].
  - intros p element. rewrite processEntry_targets. cbn.
    rewrite list_elem_of_filter. tauto.
  - intros. apply deliveries_once.
  - intros. apply handleIntersection_delayedFor.
  - intros doc element. rewrite list_alter_alter_eq. apply list_alter_ext.
    + intros n _. apply addClass_twice.
    + reflexivity.
Qed.

(** ** Clicks on in-page links *)

Lemma filter_eq_absent (l : list nat) (x : nat) :
  x ∉ l -> filter (fun y => y = x) l = [].
Proof.
  induction l as [|y l IH]; intros Hx; [reflexivity|].
  apply not_elem_of_cons in Hx as [Hne Hx].
  rewrite filter_cons, decide_False by congruence. now apply IH.
Qed.

Lemma filter_eq_NoDup (l : list nat) (x : nat) :
  NoDup l -> x ∈ l -> filter (fun y => y = x) l = [x].
Proof.
  induction 1 as [|y l Hy Hnd IH]; intros Hin.
  - inversion Hin.
  - rewrite filter_cons. destruct (decide (y = x)) as [->|Hne].
    + f_equal. now apply filter_eq_absent.
    + apply IH. apply elem_of_cons in Hin as [->|Hin]; [contradiction|exact Hin].
Qed.

(** What [elementById] finds carries the id, and it finds something
    whenever some element carries it. *)
Lemma elementById_spec (doc : Document) (ident : string) :
  match elementById doc ident with
  | Some element => attributeOf doc element "id" = Some ident
  | None => forall element, attributeOf doc element "id" ≠ Some ident
  end.
Proof.
  unfold elementById.
  destruct (filter _ _) as [|element rest] eqn:Hf; cbn.
  - intros element Ha.
    assert (Hin : element ∈ filter (fun e => attributeOf doc e "id" = Some ident)
                                   (seq 0 (length doc))).
    { apply list_elem_of_filter. split; [exact Ha|]. apply elem_of_seq.
      unfold attributeOf in Ha. destruct (doc !! element) eqn:Hl; [|discriminate].
      apply lookup_lt_Some in Hl. lia. }
    rewrite Hf in Hin. inversion Hin.
  - assert (Hin : element ∈ filter (fun e => attributeOf doc e "id" = Some ident)
                                   (seq 0 (length doc))) by (rewrite Hf; left).
    now apply list_elem_of_filter in Hin as [Ha _].
Qed.

Section Links.
Context `{SelectorEngine}.

(** A link whose [href] is [#] and a plain identifier: the default is
    prevented, the first element with that id is scrolled to if there is
    one, and nothing is thrown. *)
Lemma onClick_id (p : Page) (this : nat) (href ident : string) :
  attributeOf (document p) this "href" = Some href ->
  selectorForm href = IdSelector ident ->
  onClick this p =
  (Normal tt,
   withOutputs
     (outputs p ++ DefaultPrevented this ::
        match elementById (document p) ident with
        | Some section => [ScrolledIntoView section "smooth" "start"]
        | None => []
        end) p).
Proof.
  intros Ha Hf. rewrite onClick_eq, Ha. unfold querySelector. cbn [toString].
  rewrite Hf. cbn [document withOutputs].
  destruct (elementById (document p) ident) as [section|].
  - unfold withOutputs. cbn. now rewrite <- app_assoc.
  - reflexivity.
Qed.

Lemma onClick_invalid (p : Page) (this : nat) (href : string) :
  attributeOf (document p) this "href" = Some href ->
  selectorForm href = InvalidSelector ->
  onClick this p =
  (Throw SyntaxError, withOutputs (outputs p ++ [DefaultPrevented this]) p).
Proof.
  intros Ha Hf. rewrite onClick_eq, Ha. unfold querySelector. cbn [toString].
  now rewrite Hf.
Qed.

End Links.

(** C5. What a click on an in-page link does, for a link whose [href]
    is there.  The default is prevented in all cases.  When the [href] is
    [#] and a plain identifier, the claim holds: the first element with
    that id is scrolled to smoothly if there is one, and nothing else
    happens if there is none.  But the listener reads the [href] as
    selector text, not as a fragment: when the text is not a selector
    ([#] alone, or [#] and a digit) the lookup throws [SyntaxError] after
    the default was prevented; there is no scroll, even if an element
    carries that id, and the listener does not return normally. *)
Theorem click_listener_outcomes `{SelectorEngine}
    (p : Page) (this : nat) (href : string) :
  attributeOf (document p) this "href" = Some href ->
  (exists rest,
     outputs (onClick this p).2 = outputs p ++ DefaultPrevented this :: rest)
  /\ (forall ident : string,
        selectorForm href = IdSelector ident ->
        onClick this p =
        (Normal tt,
         withOutputs
           (outputs p ++ DefaultPrevented this ::
              match elementById (document p) ident with
              | Some section => [ScrolledIntoView section "smooth" "start"]
              | None => []
              end) p))
  /\ (selectorForm href = InvalidSelector ->
        onClick this p =
        (Throw SyntaxError, withOutputs (outputs p ++ [DefaultPrevented this]) p)).
Proof.
  intros Ha. split; [|split].
  - rewrite onClick_eq.
    pose proof (querySelector_state
      (toString (attributeOf (document p) this "href"))
      (withOutputs (outputs p ++ [DefaultPrevented this]) p)) as Hq.
    destruct (querySelector _ _) as [[[section|]|e] q]; cbn in Hq; subst q.
    + exists [ScrolledIntoView section "smooth" "start"].
      cbn. now rewrite <- app_assoc.
    + now exists [].
    + now exists [].
  - intros ident Hf. now apply (onClick_id p this href ident).
  - intros Hf. now apply (onClick_invalid p this href).
Qed.

(** C6. An operation of the script can throw: on any page, a click on a
    nav link whose [href] is [#] ends in an exception that nothing
    catches; the host reports it, after the default was prevented. *)
Theorem click_on_bare_hash_is_reported `{SelectorEngine}
    (doc : Document) (t0 : Z) (link : nat) :
  link ∈ selectAll doc navLinkSelector ->
  attributeOf doc link "href" = Some "#" ->
  option_map outputs (step (Click link) (load doc t0)) =
  Some [DefaultPrevented link; Reported SyntaxError].
Proof.
  intros Hin Ha. rewrite load_eq. cbn [step document clickListeners].
  rewrite bool_decide_true by (eapply selectAll_lt; eauto).
  rewrite (filter_eq_NoDup _ _ (selectAll_NoDup _ _) Hin). cbn [fold_left option_map].
  unfold dispatch. erewrite onClick_invalid; [reflexivity|exact Ha|reflexivity].
Qed.

(** * Worked examples *)

(** The three boxes become visible together at time 0: their reveals are
    due at 0, 300 and 600. *)
Example genre_boxes_together :
  option_map (fun p => map due (timers p))
    (run [Intersect 0 true; Intersect 1 true; Intersect 2 true; Notify]
         (load genrePage 0))
  = Some [0; 300; 600].
Proof. reflexivity. Qed.

(** The box with no delay becomes visible at time 50: it is revealed in
    the same turn, at time 50. *)
Example plain_box_same_tick :
  option_map (fun p => (revealed p 3, now p, timers p))
    (run [Advance 50; Intersect 3 true; Notify] (load genrePage 0))
  = Some (true, 50, []).
Proof. reflexivity. Qed.

Lemma hero_stagger_witness :
  selectAll heroPage heroSelector !! 1%nat = Some 2%nat
  /\ timers (load heroPage 0) !! 1%nat = Some (mkTimer (HeroReveal 2) (Num 200) 200).
Proof.
  split; [reflexivity|].
  exact (proj1 (hero_stagger heroPage 0 1 2 eq_refl)).
Defined.

Lemma leaving_viewport_is_ignored_witness :
  handleIntersection [mkEntry 0 false; mkEntry 0 false] (load genreBox 0)
  = (Normal tt, load genreBox 0).
Proof.
  apply (proj1 (proj2 leaving_viewport_is_ignored)).
  repeat constructor.
Defined.

Lemma revealed_is_forever_witness :
  revealed (load plainBox 0) 0 = false
  /\ option_map (fun p => revealed p 0)
       (run [Intersect 0 true; Notify; Advance 1000; Click 0] (load plainBox 0))
     = Some true
  /\ (transitions 0 (load plainBox 0)
        (trace [Intersect 0 true; Notify; Advance 1000; Click 0] (load plainBox 0))
      <= 1)%nat.
Proof.
  split; [reflexivity|]. split; [reflexivity|].
  apply (proj1 (proj2 (proj2 revealed_is_forever))).
Defined.

Lemma unseen_stays_hidden_witness :
  exists p,
    run [Advance 500; Intersect 0 false; Notify; Click 0] (load genreBox 0) = Some p
    /\ revealed p 0 = false.
Proof.
  eexists. split; [reflexivity|].
  refine (eq_trans (proj2 (unseen_stays_hidden genreBox 0
            [Advance 500; Intersect 0 false; Notify; Click 0] _ 0 _ _ eq_refl)) eq_refl).
  - intros Hin. inversion Hin.
  - intros Hin. repeat (apply elem_of_cons in Hin as [Hin|Hin]; [discriminate|]).
    inversion Hin.
Defined.

Lemma qualifying_event_stops_observation_witness :
  (deliveries 0
     [Intersect 0 true; Notify; Intersect 0 true; Notify]
     (load genreBox 0) <= 1)%nat
  /\ delayedFor 0 (timers (handleIntersection [mkEntry 0 true] (load genreBox 0)).2)
     = 1%nat.
Proof.
  split.
  - apply (proj1 (proj2 qualifying_event_stops_observation)).
  - exact (proj1 (proj2 (proj2 qualifying_event_stops_observation))
             [mkEntry 0 true] (load genreBox 0) 0%nat).
Defined.

(** A link to an element whose id starts with a digit. *)
Example digit_id_never_scrolled :
  let page := [ mkNode "a" None [("href", "#1")] [];
                mkNode "section" None [("id", "1")] [] ] in
  elementById page "1" = Some 1%nat
  /\ option_map outputs (step (Click 0) (load page 0))
     = Some [DefaultPrevented 0; Reported SyntaxError].
Proof. split; reflexivity. Qed.

Lemma click_listener_outcomes_witness :
  selectorForm "#" = InvalidSelector
  /\ onClick 0 (load hashLink 0)
     = (Throw SyntaxError,
        withOutputs [DefaultPrevented 0] (load hashLink 0)).
Proof.
  split; [reflexivity|].
  exact (proj2 (proj2 (click_listener_outcomes (load hashLink 0) 0 "#" eq_refl)) eq_refl).
Defined.

Lemma click_on_bare_hash_is_reported_witness :
  option_map outputs (step (Click 0) (load hashLink 0))
  = Some [DefaultPrevented 0; Reported SyntaxError].
Proof.
  apply (click_on_bare_hash_is_reported hashLink 0 0).
  - change (0%nat ∈ [0%nat]). constructor.
  - reflexivity.
Defined.

(** * Further properties of the script *)

(** ** What holds across a run *)

Section RunInvariant.
Context `{SelectorEngine}.
Variable R : Page -> Page -> Prop.
Hypothesis R_refl : forall p, R p p.
Hypothesis R_trans : forall p q r, R p q -> R q r -> R p r.
Hypothesis R_step : forall ev p p', step ev p = Some p' -> R p p'.

Lemma run_preserves (evs : list Event) (p p' : Page) :
  run evs p = Some p' -> R p p'.
Proof.
  revert p. induction evs as [|ev evs IH]; intros p Hrun.
  - cbn in Hrun. injection Hrun as <-. apply R_refl.
  - cbn in Hrun. destruct (step ev p) as [q|] eqn:Hstep; [|discriminate].
    eapply R_trans; [eapply R_step; eauto|eauto].
Qed.
End RunInvariant.

(** ** The document is only ever revealed *)

Lemma onlyReveals_refl (doc : Document) : onlyReveals doc doc.
Proof. split; auto. Qed.

Lemma onlyReveals_trans (d1 d2 d3 : Document) :
  onlyReveals d1 d2 -> onlyReveals d2 d3 -> onlyReveals d1 d3.
Proof.
  intros [Hl1 H1] [Hl2 H2]. split; [congruence|].
  intros e n Hn. destruct (H1 e n Hn) as [Hsame|Hadd].
  - apply (H2 e n Hsame).
  - destruct (H2 e _ Hadd) as [Hs|Ha].
    + now right.
    + right. now rewrite Ha, addClass_twice.
Qed.

Lemma onlyReveals_alter (doc : Document) (element : nat) :
  onlyReveals doc (alter (addClass "visible") element doc).
Proof.
  split; [apply length_alter|].
  intros e n Hn. destruct (decide (element = e)) as [->|Hne].
  - right. now rewrite list_lookup_alter_eq, Hn.
  - left. now rewrite list_lookup_alter_ne.
Qed.

Lemma processEntry_onlyReveals (entry : Entry) (p : Page) :
  onlyReveals (document p) (document (processEntry entry p).2).
Proof.
  entry_cases entry p; cbn;
    auto using onlyReveals_refl, onlyReveals_alter.
Qed.

Lemma handleIntersection_onlyReveals (entries : list Entry) (p : Page) :
  onlyReveals (document p) (document (handleIntersection entries p).2).
Proof.
  apply (handleIntersection_preserves
    (fun p q => onlyReveals (document p) (document q))).
  - intros. apply onlyReveals_refl.
  - intros. eapply onlyReveals_trans; eauto.
  - apply processEntry_onlyReveals.
Qed.

Lemma step_onlyReveals `{SelectorEngine} (ev : Event) (p p' : Page) :
  step ev p = Some p' -> onlyReveals (document p) (document p').
Proof.
  intros Hstep. destruct ev as [dt|i|element b| |link].
  - apply step_Advance_inv in Hstep as [_ ->]. apply onlyReveals_refl.
  - apply step_Fire_inv in Hstep as (t & _ & _ & ->). apply onlyReveals_alter.
  - apply step_Intersect_inv in Hstep as [_ ->]. apply onlyReveals_refl.
  - apply step_Notify_inv in Hstep as [_ ->].
    apply (handleIntersection_onlyReveals (queuedEntries p) (withQueue [] p)).
  - apply step_Click_core, core_eq in Hstep as (-> & _). apply onlyReveals_refl.
Qed.

Lemma run_onlyReveals `{SelectorEngine} (evs : list Event) (p p' : Page) :
  run evs p = Some p' -> onlyReveals (document p) (document p').
Proof.
  apply (run_preserves (fun p q => onlyReveals (document p) (document q))).
  - intros. apply onlyReveals_refl.
  - intros. eapply onlyReveals_trans; eauto.
  - intros. eapply step_onlyReveals; eauto.
Qed.

Lemma onlyReveals_attributeOf (doc doc' : Document) (e : nat) (name : string) :
  onlyReveals doc doc' -> attributeOf doc' e name = attributeOf doc e name.
Proof.
  intros [Hlen Hnodes]. unfold attributeOf.
  destruct (doc !! e) as [n|] eqn:Hn.
  - destruct (Hnodes e n Hn) as [-> | ->]; reflexivity.
  - apply lookup_ge_None in Hn. rewrite <- Hlen in Hn.
    apply lookup_ge_None in Hn. now rewrite Hn.
Qed.

(** X1. Whatever happens, the script changes nothing of the document but
    the ['visible'] class: along any run the document keeps its length,
    every node is as it was or has ['visible'] added, every attribute
    reads the same, and every other class is present or absent as
    before. *)
Theorem document_only_gains_visible `{SelectorEngine}
    (evs : list Event) (p p' : Page) :
  run evs p = Some p' ->
  onlyReveals (document p) (document p')
  /\ (forall (e : nat) (name : string),
        attributeOf (document p') e name = attributeOf (document p) e name)
  /\ (forall (e : nat) (token : string),
        token ≠ "visible" ->
        hasClass (document p') e token = hasClass (document p) e token).
Proof.
  intros Hrun. pose proof (run_onlyReveals evs p p' Hrun) as Hrev.
  split; [exact Hrev|]. split.
  - intros e name. now apply onlyReveals_attributeOf.
  - destruct Hrev as [Hlen Hnodes]. intros e token Hne. unfold hasClass.
    destruct (document p !! e) as [n|] eqn:Hn.
    + destruct (Hnodes e n Hn) as [-> | ->]; [reflexivity|].
      cbn. now apply contains_addToken_other.
    + apply lookup_ge_None in Hn. rewrite <- Hlen in Hn.
      apply lookup_ge_None in Hn. now rewrite Hn.
Qed.

(** ** Pending timers *)

Lemma processEntry_appends (entry : Entry) (p : Page) :
  exists new, timers (processEntry entry p).2 = timers p ++ new.
Proof.
  entry_cases entry p; cbn.
  - eexists. reflexivity.
  - exists []. now rewrite app_nil_r.
  - exists []. now rewrite app_nil_r.
Qed.

Lemma handleIntersection_appends (entries : list Entry) (p : Page) :
  exists new, timers (handleIntersection entries p).2 = timers p ++ new.
Proof.
  apply (handleIntersection_preserves
    (fun p q => exists new, timers q = timers p ++ new)).
  - intros q. exists []. now rewrite app_nil_r.
  - intros p1 p2 p3 [n1 H1] [n2 H2]. exists (n1 ++ n2).
    now rewrite H2, H1, app_assoc.
  - apply processEntry_appends.
Qed.

Lemma step_appends `{SelectorEngine} (ev : Event) (p p' : Page) :
  step ev p = Some p' ->
  (forall i, ev ≠ Fire i) ->
  exists new, timers p' = timers p ++ new.
Proof.
  intros Hstep Hev. destruct ev as [dt|i|element b| |link].
  - apply step_Advance_inv in Hstep as [_ ->]. exists []. now rewrite app_nil_r.
  - now destruct (Hev i).
  - apply step_Intersect_inv in Hstep as [_ ->]. exists []. now rewrite app_nil_r.
  - apply step_Notify_inv in Hstep as [_ ->].
    apply (handleIntersection_appends (queuedEntries p) (withQueue [] p)).
  - apply step_Click_core, core_eq in Hstep as (_ & _ & _ & -> & _).
    exists []. now rewrite app_nil_r.
Qed.

(** X2. A reveal that was scheduled cannot be cancelled.  Along a run in
    which no timer runs, a pending timer stays pending at its place (the
    script only appends timers); running a timer removes that timer and
    no other; and any pending timer can be run once its delay has
    elapsed, which reveals its element. *)
Theorem scheduled_reveal_cannot_be_cancelled `{SelectorEngine} :
  (forall (evs : list Event) (p p' : Page) (i : nat) (t : Timer),
     run evs p = Some p' ->
     (forall j, Fire j ∉ evs) ->
     timers p !! i = Some t -> timers p' !! i = Some t)
  /\ (forall (i : nat) (p p' : Page),
        step (Fire i) p = Some p' -> timers p' = delete i (timers p))
  /\ (forall (p : Page) (i : nat) (t : Timer),
        timers p !! i = Some t ->
        exists q,
          run [Advance (Z.max 0 (due t - now p)); Fire i] p = Some q
          /\ timers q = delete i (timers p)
          /\ ((reveals (handler t) < length (document p))%nat ->
              revealed q (reveals (handler t)) = true)).
Proof.
  split; [|split].
  - intros evs. induction evs as [|ev evs IH]; intros p p' i t Hrun Hno Ht.
    + cbn in Hrun. now injection Hrun as <-.
    + cbn in Hrun. destruct (step ev p) as [q|] eqn:Hstep; [|discriminate].
      apply (IH q p' i t Hrun).
      * intros j Hin. apply (Hno j). now right.
      * destruct (step_appends ev p q Hstep) as [new Hnew].
        { intros j ->. apply (Hno j). left. }
        rewrite Hnew. now apply lookup_app_l_Some.
  - intros i p p' Hstep.
    now apply step_Fire_inv in Hstep as (t & _ & _ & ->).
  - intros p i t Ht.
    set (p1 := withNow (now p + Z.max 0 (due t - now p)) p).
    assert (H1 : step (Advance (Z.max 0 (due t - now p))) p = Some p1).
    { cbn. destruct (Z.leb_spec 0 (Z.max 0 (due t - now p))); [reflexivity|lia]. }
    assert (H2 : due t <= now p1) by (cbn; lia).
    eexists. split; [|split].
    + cbn [run]. rewrite H1. now rewrite (step_Fire_due p1 i t Ht H2).
    + reflexivity.
    + intros Hlt. unfold revealed. cbn. now apply hasClass_alter_same.
Qed.

(** ** What page-ready registers *)

Lemma selectAll_iff (doc : Document) (sel : Selector) (e : nat) :
  e ∈ selectAll doc sel <-> matches doc sel e = true /\ (e < length doc)%nat.
Proof.
  unfold selectAll. rewrite list_elem_of_filter, elem_of_seq.
  split; intros [Hm Hl]; (split; [exact Hm|lia]).
Qed.

Lemma scrollFade_iff (doc : Document) (e : nat) :
  e ∈ selectAll doc scrollFadeSelector <-> hasClass doc e "scroll-fade" = true.
Proof.
  rewrite selectAll_iff. unfold scrollFadeSelector, hasClass. cbn [matches].
  unfold matchesCompound. destruct (doc !! e) as [n|] eqn:Hn.
  - apply lookup_lt_Some in Hn. cbn. rewrite andb_true_r. tauto.
  - split; [intros [? _]|]; discriminate.
Qed.

Lemma navLink_iff (doc : Document) (link : nat) :
  link ∈ selectAll doc navLinkSelector <->
  exists (n : Node) (v : string),
    doc !! link = Some n /\ tagName n = "a"
    /\ assoc "href" (attributes n) = Some v /\ String.prefix "#" v = true.
Proof.
  rewrite selectAll_iff. unfold navLinkSelector. cbn [matches].
  unfold matchesCompound. destruct (doc !! link) as [n|] eqn:Hn.
  - pose proof (lookup_lt_Some _ _ _ Hn) as Hlt. cbn. rewrite andb_true_r. split.
    + intros [Hm _]. apply andb_true_iff in Hm as [Htag Hp].
      apply String.eqb_eq in Htag.
      destruct (assoc "href" (attributes n)) as [v|] eqn:Hv; [|discriminate].
      exists n, v. repeat split; auto.
    + intros (n' & v & [= <-] & Htag & Hv & Hp). split; [|exact Hlt].
      rewrite Hv, Hp, andb_true_r. now apply String.eqb_eq.
  - split; [intros [? _]; discriminate|].
    intros (n & v & ? & _). discriminate.
Qed.

(** X3. At page-ready the second listener puts under observation exactly
    the elements that carry the class [scroll-fade], and the third gives a
    click listener to exactly the [a] elements whose [href] starts with
    [#]: each of them once, in document order.  Nothing is queued,
    nothing is thrown or otherwise output, and the clock has not moved;
    on a page with no such element nothing is registered. *)
Theorem page_ready_registers (doc : Document) (t0 : Z) :
  observationTargets (load doc t0) = selectAll doc scrollFadeSelector
  /\ clickListeners (load doc t0) = selectAll doc navLinkSelector
  /\ NoDup (observationTargets (load doc t0))
  /\ NoDup (clickListeners (load doc t0))
  /\ (forall e : nat,
        e ∈ observationTargets (load doc t0) <->
        hasClass doc e "scroll-fade" = true)
  /\ (forall link : nat,
        link ∈ clickListeners (load doc t0) <->
        exists (n : Node) (v : string),
          doc !! link = Some n /\ tagName n = "a"
          /\ assoc "href" (attributes n) = Some v /\ String.prefix "#" v = true)
  /\ queuedEntries (load doc t0) = []
  /\ outputs (load doc t0) = []
  /\ now (load doc t0) = t0.
Proof.
  assert (Ht : observationTargets (load doc t0) = selectAll doc scrollFadeSelector).
  { rewrite load_eq. cbn [observationTargets].
    apply (observeAll_fresh _ []). cbn. apply selectAll_NoDup. }
  assert (Hc : clickListeners (load doc t0) = selectAll doc navLinkSelector)
    by now rewrite load_eq.
  split; [exact Ht|]. split; [exact Hc|].
  split; [rewrite Ht; apply selectAll_NoDup|].
  split; [rewrite Hc; apply selectAll_NoDup|].
  split; [intros e; rewrite Ht; apply scrollFade_iff|].
  split; [intros link; rewrite Hc; apply navLink_iff|].
  now rewrite load_eq.
Qed.

(** ** Who is observed *)

Lemma processEntry_keeps (entry : Entry) (p : Page) (e : nat) :
  ~ (target entry = e /\ isIntersecting entry = true) ->
  e ∈ observationTargets p ->
  e ∈ observationTargets (processEntry entry p).2.
Proof.
  intros Hno Hin. rewrite processEntry_targets.
  destruct (isIntersecting entry) eqn:Hb; [|exact Hin].
  apply list_elem_of_filter. split; [|exact Hin].
  intros ->. now apply Hno.
Qed.

Lemma handleIntersection_keeps (entries : list Entry) (p : Page) (e : nat) :
  qualifying e entries = 0%nat ->
  e ∈ observationTargets p ->
  e ∈ observationTargets (handleIntersection entries p).2.
Proof.
  revert p. induction entries as [|entry entries IH]; intros p Hq Hin.
  - exact Hin.
  - rewrite qualifying_cons in Hq. rewrite handleIntersection_cons.
    destruct (bool_decide_reflect (target entry = e /\ isIntersecting entry = true))
      as [Hyes|Hno]; [discriminate|].
    apply IH; [exact Hq|]. now apply processEntry_keeps.
Qed.

Section Observed.
Context `{SelectorEngine}.

(** [e] is observed and no queued entry qualifies for it. *)
Lemma waiting_step (e : nat) (ev : Event) (p p' : Page) :
  ev ≠ Intersect e true ->
  step ev p = Some p' ->
  e ∈ observationTargets p /\ qualifying e (queuedEntries p) = 0%nat ->
  e ∈ observationTargets p' /\ qualifying e (queuedEntries p') = 0%nat.
Proof.
  intros Hev Hstep [Hin Hq]. destruct ev as [dt|i|element b| |link].
  - apply step_Advance_inv in Hstep as [_ ->]. auto.
  - apply step_Fire_inv in Hstep as (t & _ & _ & ->). auto.
  - apply step_Intersect_inv in Hstep as [_ ->]. split; [exact Hin|].
    cbn [queuedEntries withQueue].
    rewrite qualifying_app, Hq, qualifying_cons. cbn.
    rewrite bool_decide_false; [reflexivity|].
    intros [-> ->]. now apply Hev.
  - apply step_Notify_inv in Hstep as [_ ->]. split.
    + now apply handleIntersection_keeps.
    + destruct (handleIntersection_queue (queuedEntries p) (withQueue [] p))
        as (-> & _). reflexivity.
  - apply step_Click_core, core_eq in Hstep as (_ & -> & -> & _). auto.
Qed.

Lemma run_targets_incl (evs : list Event) (p p' : Page) (e : nat) :
  run evs p = Some p' ->
  e ∈ observationTargets p' -> e ∈ observationTargets p.
Proof.
  apply (run_preserves
    (fun p q => e ∈ observationTargets q -> e ∈ observationTargets p)); auto.
  intros ev q q' Hstep. eapply step_targets_incl; eauto.
Qed.

End Observed.

(** X4. After page-ready the observation only shrinks, and only by
    elements that were seen: along any run, what is observed is a
    [.scroll-fade] element of the page, and a [.scroll-fade] element for
    which no intersecting entry was queued is still observed, with no
    qualifying entry waiting for it. *)
Theorem observed_until_seen `{SelectorEngine}
    (doc : Document) (t0 : Z) (evs : list Event) (p : Page) :
  run evs (load doc t0) = Some p ->
  (forall e : nat,
     e ∈ observationTargets p -> hasClass doc e "scroll-fade" = true)
  /\ (forall e : nat,
        hasClass doc e "scroll-fade" = true ->
        Intersect e true ∉ evs ->
        e ∈ observationTargets p /\ qualifying e (queuedEntries p) = 0%nat).
Proof.
  intros Hrun.
  assert (Ht : forall e, e ∈ observationTargets (load doc t0) <->
                         hasClass doc e "scroll-fade" = true).
  { intros e. rewrite load_eq. cbn [observationTargets].
    rewrite (observeAll_fresh _ []) by (cbn; apply selectAll_NoDup).
    apply scrollFade_iff. }
  split.
  - intros e Hin. apply Ht. eapply run_targets_incl; eauto.
  - intros e Hc Hno. apply Ht in Hc.
    assert (Hq0 : qualifying e (queuedEntries (load doc t0)) = 0%nat)
      by now rewrite load_eq.
    revert Hrun Hno Hc Hq0. generalize (load doc t0). clear Ht.
    induction evs as [|ev evs IH]; intros p0 Hrun Hno Hin Hq.
    + cbn in Hrun. injection Hrun as <-. auto.
    + cbn in Hrun. destruct (step ev p0) as [q|] eqn:Hstep; [|discriminate].
      destruct (waiting_step e ev p0 q) as [Hin' Hq']; auto.
      { intros ->. apply Hno. left. }
      apply (IH q); auto. intros Hin2. apply Hno. now right.
Qed.

(** ** Batches *)

Lemma handleIntersection_app (l1 l2 : list Entry) (p : Page) :
  handleIntersection (l1 ++ l2) p =
  handleIntersection l2 (handleIntersection l1 p).2.
Proof.
  revert p. induction l1 as [|entry l1 IH]; intros p.
  - reflexivity.
  - cbn [app]. rewrite !handleIntersection_cons. apply IH.
Qed.

(** X5. The callback treats a batch as its entries one after the other:
    it returns normally for any batch, whatever the [data-delay] texts;
    its outcome is that of processing each entry in turn; and a batch
    cut in two gives, part after part, the outcome of the whole. *)
Theorem batches_compose :
  (forall (entries : list Entry) (p : Page),
     handleIntersection entries p =
     (Normal tt, fold_left (fun q entry => (processEntry entry q).2) entries p))
  /\ (forall (l1 l2 : list Entry) (p : Page),
        handleIntersection (l1 ++ l2) p =
        handleIntersection l2 (handleIntersection l1 p).2).
Proof.
  split.
  - intros entries. induction entries as [|entry entries IH]; intros p.
    + reflexivity.
    + rewrite handleIntersection_cons. cbn [fold_left]. apply IH.
  - intros l1 l2 p. apply handleIntersection_app.
Qed.

(** ** The hero timers, to the end *)

Lemma awaited_heroTimers (t0 : Z) (l : list nat) :
  awaited (imap (heroTimer t0) l) = l.
Proof.
  apply list_eq. intros i. unfold awaited.
  rewrite list_lookup_fmap, list_lookup_imap.
  now destruct (l !! i).
Qed.

Section FireAll.
Context `{SelectorEngine}.

(** When every pending timer is due, running the first one again and
    again empties the list and reveals what was awaited, nothing else. *)
Lemma fire_all (ts : list Timer) (p : Page) :
  timers p = ts ->
  Forall (fun t => due t <= now p) ts ->
  exists q,
    run (replicate (length ts) (Fire 0)) p = Some q
    /\ timers q = []
    /\ now q = now p
    /\ (forall e, e ∈ awaited ts -> (e < length (document p))%nat ->
                  revealed q e = true)
    /\ (forall e, e ∉ awaited ts -> document q !! e = document p !! e).
Proof.
  revert p. induction ts as [|t ts IH]; intros p Hts Hdue.
  - exists p. repeat split; auto. intros e Hin. inversion Hin.
  - inversion Hdue as [|? ? Ht Hrest]; subst.
    set (p1 := withDocument (alter (addClass "visible") (reveals (handler t)) (document p))
                 (withTimers (delete 0%nat (timers p)) p)).
    assert (Hstep : step (Fire 0) p = Some p1).
    { apply (step_Fire_due p 0 t); [now rewrite Hts|exact Ht]. }
    assert (Hts1 : timers p1 = ts) by (cbn; now rewrite Hts).
    destruct (IH p1 Hts1 Hrest) as (q & Hrun & Hq & Hnow & Hrev & Hsame).
    exists q. cbn [length replicate run]. rewrite Hstep.
    split; [exact Hrun|]. split; [exact Hq|]. split; [exact Hnow|]. split.
    + intros e Hin Hlt. unfold awaited in Hin. cbn in Hin.
      apply elem_of_cons in Hin as [->|Hin].
      * unfold revealed. eapply run_grows; [exact Hrun|].
        cbn. now apply hasClass_alter_same.
      * apply Hrev; [exact Hin|]. cbn. now rewrite length_alter.
    + intros e Hnot. unfold awaited in Hnot. cbn in Hnot.
      apply not_elem_of_cons in Hnot as [Hne Hnot].
      rewrite (Hsame e Hnot). cbn. apply list_lookup_alter_ne. congruence.
Qed.

End FireAll.

(** X6. The hero fade-in runs to its end.  From page-ready, once
    [200 * (n - 1)] ms have passed, the [n] hero timers can run one
    after the other; then no timer is pending, every hero element is
    revealed, and every other element is as it was parsed.  With no hero
    element nothing runs and nothing changes. *)
Theorem hero_reveals_all `{SelectorEngine} (doc : Document) (t0 : Z) :
  exists q,
    run (Advance (200 * Z.of_nat (length (selectAll doc heroSelector) - 1))
           :: replicate (length (selectAll doc heroSelector)) (Fire 0))
        (load doc t0) = Some q
    /\ timers q = []
    /\ (forall e, e ∈ selectAll doc heroSelector -> revealed q e = true)
    /\ (forall e, e ∉ selectAll doc heroSelector -> document q !! e = doc !! e).
Proof.
  set (hero := selectAll doc heroSelector).
  set (dt := 200 * Z.of_nat (length hero - 1)).
  set (p1 := withNow (now (load doc t0) + dt) (load doc t0)).
  assert (Hstep : step (Advance dt) (load doc t0) = Some p1).
  { cbn [step]. destruct (Z.leb_spec 0 dt); [reflexivity|subst dt; lia]. }
  assert (Hts : timers p1 = imap (heroTimer t0) hero).
  { change (timers p1) with (timers (load doc t0)). now rewrite load_eq. }
  assert (Hdoc : document p1 = doc).
  { change (document p1) with (document (load doc t0)). now rewrite load_eq. }
  assert (Hnow : now p1 = t0 + dt).
  { change (now p1) with (now (load doc t0) + dt). now rewrite load_eq. }
  assert (Hdue : Forall (fun t => due t <= now p1) (imap (heroTimer t0) hero)).
  { apply Forall_lookup. intros i t. rewrite list_lookup_imap.
    destruct (hero !! i) as [e|] eqn:He; [|discriminate].
    intros [= <-]. apply lookup_lt_Some in He. rewrite Hnow. cbn. subst dt. lia. }
  destruct (fire_all _ p1 Hts Hdue) as (q & Hrun & Hq & _ & Hrev & Hsame).
  rewrite length_imap in Hrun. rewrite awaited_heroTimers in Hrev, Hsame.
  exists q. cbn [run]. rewrite Hstep.
  split; [exact Hrun|]. split; [exact Hq|]. split.
  - intros e Hin. apply Hrev; [exact Hin|].
    rewrite Hdoc. eapply selectAll_lt; eauto.
  - intros e Hnot. now rewrite (Hsame e Hnot), Hdoc.
Qed.

(** ** Clicks, at any time *)

Lemma step_clickListeners `{SelectorEngine} (ev : Event) (p p' : Page) :
  step ev p = Some p' -> clickListeners p' = clickListeners p.
Proof.
  intros Hstep. destruct ev as [dt|i|element b| |link].
  - now apply step_Advance_inv in Hstep as [_ ->].
  - now apply step_Fire_inv in Hstep as (t & _ & _ & ->).
  - now apply step_Intersect_inv in Hstep as [_ ->].
  - apply step_Notify_inv in Hstep as [_ ->].
    now destruct (handleIntersection_queue (queuedEntries p) (withQueue [] p))
      as (_ & _ & _ & ->).
  - apply step_Click_core in Hstep. unfold core in Hstep. now injection Hstep.
Qed.

Lemma run_clickListeners `{SelectorEngine} (evs : list Event) (p p' : Page) :
  run evs p = Some p' -> clickListeners p' = clickListeners p.
Proof.
  apply (run_preserves (fun p q => clickListeners q = clickListeners p));
    try congruence.
  intros. eapply step_clickListeners; eauto.
Qed.

(** ** Clicks and reveals do not meet *)

Lemma core_reframe (ls : list ReadyListener) (os : list Output) (p : Page) :
  core (reframe ls os p) = core p.
Proof. reflexivity. Qed.

Lemma core_eq_reframe (p q : Page) :
  core q = core p -> q = reframe (readyListeners q) (outputs q) p.
Proof.
  destruct p, q. unfold core, reframe, withOutputs, withReady. cbn.
  intros [= -> -> -> -> -> ->]. reflexivity.
Qed.

Lemma processEntry_reframe (ls : list ReadyListener) (os : list Output)
    (entry : Entry) (p : Page) :
  (processEntry entry (reframe ls os p)).2 = reframe ls os (processEntry entry p).2.
Proof.
  destruct entry as [element [|]]; [|reflexivity].
  unfold processEntry. js_unfold. cbn.
  now destruct (attributeOf (document p) element "data-delay").
Qed.

Lemma handleIntersection_reframe (ls : list ReadyListener) (os : list Output)
    (entries : list Entry) (p : Page) :
  (handleIntersection entries (reframe ls os p)).2 =
  reframe ls os (handleIntersection entries p).2.
Proof.
  revert p. induction entries as [|entry entries IH]; intros p; [reflexivity|].
  now rewrite !handleIntersection_cons, processEntry_reframe, IH.
Qed.

Section Apart.
Context `{SelectorEngine}.

(** A turn that is not a click reads and writes the core only. *)
Lemma step_reframe (ls : list ReadyListener) (os : list Output) (ev : Event) (p : Page) :
  notClick ev = true ->
  step ev (reframe ls os p) = reframe ls os <$> step ev p.
Proof.
  intros Hev. destruct ev as [dt|i|element b| |link]; try discriminate.
  - cbn. now destruct (0 <=? dt).
  - cbn [step]. change (timers (reframe ls os p)) with (timers p).
    change (now (reframe ls os p)) with (now p).
    destruct (timers p !! i) as [t|]; [|reflexivity].
    destruct (due t <=? now p); [|reflexivity].
    now rewrite !dispatch_runHandler.
  - cbn. now destruct (bool_decide _).
  - cbn [step]. change (queuedEntries (reframe ls os p)) with (queuedEntries p).
    destruct (queuedEntries p) as [|entry entries]; [reflexivity|].
    cbn [fmap option_fmap option_map]. f_equal.
    rewrite !dispatch_normal by apply handleIntersection_normal.
    apply (handleIntersection_reframe ls os (entry :: entries) (withQueue [] p)).
Qed.

Lemma step_outputs (ev : Event) (p p' : Page) :
  notClick ev = true ->
  step ev p = Some p' ->
  outputs p' = outputs p /\ clickListeners p' = clickListeners p.
Proof.
  intros Hev Hstep. split; [|eapply step_clickListeners; eauto].
  destruct ev as [dt|i|element b| |link]; try discriminate.
  - now apply step_Advance_inv in Hstep as [_ ->].
  - now apply step_Fire_inv in Hstep as (t & _ & _ & ->).
  - now apply step_Intersect_inv in Hstep as [_ ->].
  - apply step_Notify_inv in Hstep as [_ ->].
    now destruct (handleIntersection_queue (queuedEntries p) (withQueue [] p))
      as (_ & _ & -> & _).
Qed.

Lemma run_without_clicks (evs : list Event) (p q p2 : Page) :
  core p2 = core p ->
  run evs p = Some q ->
  exists q2, run (List.filter notClick evs) p2 = Some q2 /\ core q2 = core q.
Proof.
  revert p p2. induction evs as [|ev evs IH]; intros p p2 Hcore Hrun.
  - cbn in Hrun. injection Hrun as <-. now exists p2.
  - cbn in Hrun. destruct (step ev p) as [p1|] eqn:Hstep; [|discriminate].
    cbn [List.filter]. destruct (notClick ev) eqn:Hev.
    + rewrite (core_eq_reframe p p2 Hcore). cbn [run].
      rewrite (step_reframe _ _ ev p Hev), Hstep. cbn [fmap option_fmap option_map].
      apply (IH p1); [apply core_reframe|exact Hrun].
    + destruct ev; try discriminate.
      apply (IH p1); [|exact Hrun].
      rewrite Hcore. symmetry. eapply step_Click_core; eauto.
Qed.

End Apart.

(** X8. Clicks and reveals do not meet.  A click changes neither the
    document, nor the observer, nor the timers, nor the clock; every
    other turn leaves the outputs (prevented defaults, scrolls, reported
    exceptions) and the click listeners alone; and a run with its clicks
    taken out still goes through and ends with the same document,
    observer, timers and clock. *)
Theorem clicks_do_not_disturb_reveals `{SelectorEngine} :
  (forall (link : nat) (p p' : Page),
     step (Click link) p = Some p' -> core p' = core p)
  /\ (forall (ev : Event) (p p' : Page),
        notClick ev = true -> step ev p = Some p' ->
        outputs p' = outputs p /\ clickListeners p' = clickListeners p)
  /\ (forall (evs : list Event) (p q : Page),
        run evs p = Some q ->
        exists q', run (List.filter notClick evs) p = Some q' /\ core q' = core q).
Proof.
  split; [|split].
  - intros link p p' Hstep. eapply step_Click_core; eauto.
  - intros ev p p' Hev Hstep. eapply step_outputs; eauto.
  - intros evs p q Hrun. eapply run_without_clicks; eauto.
Qed.

(** ** Delay indices as they are written *)

Lemma valueOf_from (R : Z) (ds : list Z) (acc : Z) :
  0 <= R -> 0 <= acc -> Forall (fun d => 0 <= d <= 9) ds ->
  0 <= fold_left (fun a d => a * R + d) ds acc.
Proof.
  intros HR. revert acc. induction ds as [|d ds IH]; intros acc Hacc Hall.
  - exact Hacc.
  - inversion Hall as [|? ? Hd Hds]; subst. cbn. apply IH; [nia|exact Hds].
Qed.

Lemma parseInt_minus_numeral (ds : list Z) :
  ds ≠ [] ->
  Forall (fun d => 0 <= d <= 9) ds ->
  parseInt (String "-" (numeral ds)) = Num (- valueOf 10 ds).
Proof.
  intros Hne Hall. destruct ds as [|d ds]; [contradiction|].
  pose proof (takeDigits_numeral _ Hall) as Htake.
  inversion Hall as [|? ? Hd Hds]; subst.
  assert (Hshape : parseInt (String "-" (numeral (d :: ds))) =
                   match takeDigits 10 (numeral (d :: ds)) with
                   | [] => NaN
                   | ds' => Num (-1 * valueOf 10 ds')
                   end).
  { destruct ds as [|d' ds].
    - each_digit d Hd; reflexivity.
    - inversion Hds as [|? ? Hd' _]; subst.
      each_digit d Hd; try reflexivity.
      each_digit d' Hd'; reflexivity. }
  rewrite Hshape, Htake. f_equal; lia.
Qed.

(** ** Every observed element can be revealed *)

Lemma step_Notify_some `{SelectorEngine} (p : Page) :
  queuedEntries p ≠ [] ->
  step Notify p = Some (handleIntersection (queuedEntries p) (withQueue [] p)).2.
Proof.
  intros Hq. cbn [step]. destruct (queuedEntries p) as [|entry entries]; [contradiction|].
  f_equal. apply dispatch_normal, handleIntersection_normal.
Qed.

(** X10. Nothing stands between an observed element and its reveal.
    From any state, for an observed element of the document, the host
    can queue an intersecting entry and deliver the queue; the element is
    then revealed at once when it has no [data-delay], and otherwise
    after its timer, which can run once its delay has passed.  At the end
    the element is revealed and no longer observed. *)
Theorem observed_element_can_be_revealed `{SelectorEngine} (p : Page) (e : nat) :
  e ∈ observationTargets p ->
  (e < length (document p))%nat ->
  exists (rest : list Event) (q : Page),
    run (Intersect e true :: Notify :: rest) p = Some q
    /\ revealed q e = true
    /\ (e ∉ observationTargets q)
    /\ (attributeOf (document p) e "data-delay" = None -> rest = []).
Proof.
  intros Hin Hlt.
  set (p0 := withQueue (queuedEntries p ++ [mkEntry e true]) p).
  set (p1 := (handleIntersection (queuedEntries p) (withQueue [] p)).2).
  assert (H0 : step (Intersect e true) p = Some p0).
  { cbn [step]. now rewrite bool_decide_true. }
  assert (H1 : step Notify p0 = Some (processEntry (mkEntry e true) p1).2).
  { rewrite step_Notify_some by (cbn; now destruct (queuedEntries p)).
    change (withQueue [] p0) with (withQueue [] p).
    change (queuedEntries p0) with (queuedEntries p ++ [mkEntry e true]).
    now rewrite handleIntersection_app, handleIntersection_cons. }
  assert (Hattr : attributeOf (document p1) e "data-delay" =
                  attributeOf (document p) e "data-delay")
    by apply (handleIntersection_attributes _ (withQueue [] p)).
  assert (Hlen : length (document p1) = length (document p))
    by apply (handleIntersection_length _ (withQueue [] p)).
  destruct (attributeOf (document p) e "data-delay") as [s|] eqn:Ha.
  - pose proof (processEntry_delayed e s p1 Hattr) as Hp.
    set (dl := times (parseInt s) (Num 300)) in *.
    set (t := mkTimer (DelayedReveal e) dl (now p1 + effectiveDelay dl)) in *.
    set (p2 := (processEntry (mkEntry e true) p1).2) in *.
    assert (Ht : timers p2 !! length (timers p1) = Some t).
    { subst p2. rewrite Hp. cbn. now rewrite lookup_app_r, Nat.sub_diag by lia. }
    assert (Hdelay : 0 <= effectiveDelay dl) by (destruct dl; cbn; lia).
    set (p3 := withNow (now p2 + effectiveDelay dl) p2).
    assert (H2 : step (Advance (effectiveDelay dl)) p2 = Some p3).
    { cbn [step]. destruct (Z.leb_spec 0 (effectiveDelay dl)); [reflexivity|lia]. }
    assert (Hdue : due t <= now p3).
    { subst p3 p2. rewrite Hp. cbn. lia. }
    assert (Hd2 : document p2 = document p1) by (subst p2; now rewrite Hp).
    assert (Hg2 : observationTargets p2 =
                  filter (fun x => x ≠ e) (observationTargets p1))
      by (subst p2; now rewrite Hp).
    set (p4 := withDocument (alter (addClass "visible") e (document p3))
                 (withTimers (delete (length (timers p1)) (timers p3)) p3)).
    exists [Advance (effectiveDelay dl); Fire (length (timers p1))], p4.
    split; [|split; [|split]].
    + cbn [run]. rewrite H0, H1. fold p2. rewrite H2.
      now rewrite (step_Fire_due p3 _ t Ht Hdue).
    + unfold revealed. change (document p4)
        with (alter (addClass "visible") e (document p2)).
      apply hasClass_alter_same. rewrite Hd2. lia.
    + change (observationTargets p4) with (observationTargets p2).
      rewrite Hg2, list_elem_of_filter. tauto.
    + discriminate.
  - pose proof (processEntry_immediate e p1 Hattr) as Hp.
    exists [], (processEntry (mkEntry e true) p1).2.
    split; [|split; [|split]].
    + cbn [run]. now rewrite H0, H1.
    + rewrite Hp. unfold revealed. cbn. apply hasClass_alter_same. lia.
    + rewrite Hp. cbn. rewrite list_elem_of_filter. tauto.
    + reflexivity.
Qed.

(** ** The delay, seen from the element *)

(** An element with a [data-delay] is never revealed by the callback
    itself. *)
Lemma processEntry_delayed_node (entry : Entry) (p : Page) (e : nat) (s : string) :
  attributeOf (document p) e "data-delay" = Some s ->
  document (processEntry entry p).2 !! e = document p !! e.
Proof.
  intros Hs. entry_cases entry p; cbn; try reflexivity.
  apply list_lookup_alter_ne. intros ->. congruence.
Qed.

(** The timers that a batch adds carry the delay of their element. *)
Lemma handleIntersection_new_timers (entries : list Entry) (p : Page) :
  exists new,
    timers (handleIntersection entries p).2 = timers p ++ new
    /\ Forall (fun t => exists s,
                 attributeOf (document p) (reveals (handler t)) "data-delay" = Some s
                 /\ due t = now p + effectiveDelay (times (parseInt s) (Num 300)))
              new.
Proof.
  revert p. induction entries as [|entry entries IH]; intros p.
  - exists []. split; [now rewrite app_nil_r|constructor].
  - rewrite handleIntersection_cons.
    destruct (IH (processEntry entry p).2) as (new & Hnew & Hall).
    assert (Hsame : Forall (fun t => exists s,
              attributeOf (document p) (reveals (handler t)) "data-delay" = Some s
              /\ due t = now p + effectiveDelay (times (parseInt s) (Num 300))) new).
    { eapply Forall_impl; [exact Hall|]. cbn. intros t (s & Hs & Hd). exists s.
      rewrite processEntry_attributes in Hs.
      destruct (processEntry_queue entry p) as (_ & Hn & _).
      rewrite Hn in Hd. auto. }
    rewrite Hnew. clear Hnew Hall IH.
    entry_cases entry p; cbn [snd timers withTargets withTimers withDocument].
    + eexists. rewrite <- app_assoc. split; [reflexivity|].
      constructor; [|exact Hsame]. cbn. eauto.
    + eauto.
    + eauto.
Qed.

Lemma handleIntersection_delayed_node (entries : list Entry) (p : Page) (e : nat) (s : string) :
  attributeOf (document p) e "data-delay" = Some s ->
  document (handleIntersection entries p).2 !! e = document p !! e.
Proof.
  revert p. induction entries as [|entry entries IH]; intros p Hs; [reflexivity|].
  rewrite handleIntersection_cons, IH.
  - now apply (processEntry_delayed_node entry p e s).
  - now rewrite processEntry_attributes.
Qed.

Section Late.
Context `{SelectorEngine}.

Lemma notBefore_step (e : nat) (T D : Z) (ev : Event) (p p' : Page) :
  step ev p = Some p' -> notBefore e T D p -> notBefore e T D p'.
Proof.
  intros Hstep (Htm & Hrev & Hset).
  assert (Hset' : settled e p') by (eapply settled_step; eauto).
  split; [|split; [|exact Hset']].
  - destruct ev as [dt|i|element b| |link].
    + now apply step_Advance_inv in Hstep as [_ ->].
    + apply step_Fire_inv in Hstep as (t & _ & _ & ->). cbn.
      now apply Forall_delete.
    + now apply step_Intersect_inv in Hstep as [_ ->].
    + apply step_Notify_inv in Hstep as [_ ->].
      destruct Hset as [_ Hq].
      destruct (handleIntersection_elsewhere (queuedEntries p) (withQueue [] p) e Hq)
        as (_ & new & -> & Hnew).
      apply Forall_app. split; [exact Htm|].
      eapply Forall_impl; [exact Hnew|]. cbn. intros t Hne He. contradiction.
    + now apply step_Click_core, core_eq in Hstep as (_ & _ & _ & -> & _).
  - destruct ev as [dt|i|element b| |link].
    + apply step_Advance_inv in Hstep as [Hdt ->]. cbn. intros Hr.
      specialize (Hrev Hr). lia.
    + apply step_Fire_inv in Hstep as (t & Ht & Hdue & ->).
      unfold revealed. cbn.
      destruct (decide (reveals (handler t) = e)) as [He|Hne].
      * intros _. pose proof (proj1 (Forall_lookup _ _) Htm i t Ht He). lia.
      * rewrite hasClass_alter_ne by exact Hne. exact Hrev.
    + now apply step_Intersect_inv in Hstep as [_ ->].
    + apply step_Notify_inv in Hstep as [_ ->].
      destruct Hset as [_ Hq].
      destruct (handleIntersection_elsewhere (queuedEntries p) (withQueue [] p) e Hq)
        as (Hdoc & _).
      destruct (handleIntersection_queue (queuedEntries p) (withQueue [] p))
        as (_ & Hnow & _).
      unfold revealed, hasClass. rewrite Hdoc, Hnow. exact Hrev.
    + apply step_Click_core, core_eq in Hstep as (Hd & _ & _ & _ & Hn).
      unfold revealed. rewrite Hd, Hn. exact Hrev.
Qed.

Lemma notBefore_run (e : nat) (T D : Z) (evs : list Event) (p p' : Page) :
  run evs p = Some p' -> notBefore e T D p -> notBefore e T D p'.
Proof.
  revert p. induction evs as [|ev evs IH]; intros p Hrun Hnb.
  - cbn in Hrun. now injection Hrun as <-.
  - cbn in Hrun. destruct (step ev p) as [q|] eqn:Hstep; [|discriminate].
    eapply IH; eauto using notBefore_step.
Qed.

(** Before the element is seen: it is as it was parsed and no pending
    timer would reveal it. *)
Lemma unseen_step (doc0 : Document) (e : nat) (ev : Event) (p p' : Page) :
  step ev p = Some p' ->
  (ev = Notify -> qualifying e (queuedEntries p) = 0%nat) ->
  document p !! e = doc0 !! e
  /\ Forall (fun t => reveals (handler t) ≠ e) (timers p) ->
  document p' !! e = doc0 !! e
  /\ Forall (fun t => reveals (handler t) ≠ e) (timers p').
Proof.
  intros Hstep Hq [Hdoc Htm]. destruct ev as [dt|i|element b| |link].
  - now apply step_Advance_inv in Hstep as [_ ->].
  - apply step_Fire_inv in Hstep as (t & Ht & _ & ->). split; cbn.
    + rewrite list_lookup_alter_ne; [exact Hdoc|].
      exact (proj1 (Forall_lookup _ _) Htm i t Ht).
    + now apply Forall_delete.
  - now apply step_Intersect_inv in Hstep as [_ ->].
  - apply step_Notify_inv in Hstep as [_ ->].
    destruct (handleIntersection_elsewhere (queuedEntries p) (withQueue [] p) e
                (Hq eq_refl)) as (Hd & new & -> & Hnew).
    split; [now rewrite Hd|]. apply Forall_app. auto.
  - apply step_Click_core, core_eq in Hstep as (Hd & _ & _ & Ht & _).
    now rewrite Hd, Ht.
Qed.

Lemma revealed_after_delay (doc0 : Document) (e : nat)
    (evs : list Event) (p0 p : Page) :
  hasClass doc0 e "visible" = false ->
  document p0 !! e = doc0 !! e ->
  Forall (fun t => reveals (handler t) ≠ e) (timers p0) ->
  run evs p0 = Some p ->
  revealed p e = true ->
  exists T, seenAt e evs p0 = Some T /\ T + delayOf doc0 e <= now p.
Proof.
  intros Hhid. revert p0.
  induction evs as [|ev evs IH]; intros p0 Hdoc Htm Hrun Hrev.
  - cbn in Hrun. injection Hrun as <-.
    unfold revealed, hasClass in Hrev, Hhid. rewrite Hdoc in Hrev. congruence.
  - cbn in Hrun. destruct (step ev p0) as [p1|] eqn:Hstep; [|discriminate].
    cbn [seenAt]. rewrite Hstep.
    assert (Hgo : (ev = Notify -> qualifying e (queuedEntries p0) = 0%nat) ->
                  exists T, seenAt e evs p1 = Some T /\ T + delayOf doc0 e <= now p).
    { intros Hq. destruct (unseen_step doc0 e ev p0 p1 Hstep Hq (conj Hdoc Htm))
        as [Hdoc1 Htm1]. now apply (IH p1). }
    destruct ev as [dt|i|element b| |link]; try (apply Hgo; discriminate).
    destruct (bool_decide_reflect (0 < qualifying e (queuedEntries p0))%nat)
      as [Hpos|Hzero]; [|apply Hgo; intros _; lia].
    exists (now p0). split; [reflexivity|].
    assert (Hattr : attributeOf (document p0) e "data-delay" =
                    attributeOf doc0 e "data-delay")
      by (unfold attributeOf; now rewrite Hdoc).
    assert (Hnb : notBefore e (now p0) (delayOf doc0 e) p1).
    { apply step_Notify_inv in Hstep as [_ ->].
      destruct (handleIntersection_new_timers (queuedEntries p0) (withQueue [] p0))
        as (new & Hnew & Hall).
      split; [|split].
      - rewrite Hnew. apply Forall_app. split.
        + eapply Forall_impl; [exact Htm|]. cbn. intros t Hne He. contradiction.
        + eapply Forall_impl; [exact Hall|]. cbn. intros t (s' & Hs' & Hdue) He.
          rewrite He, Hattr in Hs'. unfold delayOf. rewrite Hs', Hdue. lia.
      - destruct (handleIntersection_queue (queuedEntries p0) (withQueue [] p0))
          as (_ & Hnow & _).
        rewrite Hnow. cbn [now withQueue]. unfold delayOf.
        destruct (attributeOf doc0 e "data-delay") as [s|] eqn:Hs; [|intros _; lia].
        unfold revealed, hasClass.
        rewrite (handleIntersection_delayed_node _ (withQueue [] p0) e s Hattr). cbn.
        unfold hasClass in Hhid. rewrite Hdoc. congruence.
      - split.
        + now apply handleIntersection_unobserves.
        + destruct (handleIntersection_queue (queuedEntries p0) (withQueue [] p0))
            as (-> & _). reflexivity. }
    now apply (notBefore_run e _ _ evs p1 p Hrun Hnb).
Qed.

End Late.

(** ** Worked examples, continued *)

Lemma document_only_gains_visible_witness :
  exists p',
    run [Intersect 0 true; Notify] (load plainBox 0) = Some p'
    /\ hasClass (document p') 0 "scroll-fade" = true.
Proof.
  eexists. split; [reflexivity|].
  refine (eq_trans (proj2 (proj2 (document_only_gains_visible
    [Intersect 0 true; Notify] (load plainBox 0) _ eq_refl))
    0%nat "scroll-fade" _) eq_refl). discriminate.
Defined.

Lemma scheduled_reveal_cannot_be_cancelled_witness :
  exists q,
    run [Advance 200; Fire 1] (load heroPage 0) = Some q
    /\ revealed q 2 = true.
Proof.
  destruct (proj2 (proj2 scheduled_reveal_cannot_be_cancelled)
              (load heroPage 0) 1%nat (mkTimer (HeroReveal 2) (Num 200) 200) eq_refl)
    as (q & Hrun & _ & Hrev).
  exists q. split; [exact Hrun|]. apply Hrev. change (2 < 3)%nat. lia.
Defined.

Lemma page_ready_registers_witness :
  observationTargets (load genreBox 0) = [0%nat]
  /\ clickListeners (load hashLink 0) = [0%nat].
Proof.
  split.
  - exact (proj1 (page_ready_registers genreBox 0)).
  - exact (proj1 (proj2 (page_ready_registers hashLink 0))).
Defined.

Lemma observed_until_seen_witness :
  exists p,
    run [Intersect 0 false; Notify] (load genreBox 0) = Some p
    /\ 0%nat ∈ observationTargets p.
Proof.
  eexists. split; [reflexivity|].
  refine (proj1 (proj2 (observed_until_seen genreBox 0
            [Intersect 0 false; Notify] _ eq_refl) 0%nat eq_refl _)).
  intros Hin. repeat (apply elem_of_cons in Hin as [Hin|Hin]; [discriminate|]).
  inversion Hin.
Defined.

Lemma batches_compose_witness :
  handleIntersection ([mkEntry 0 true] ++ [mkEntry 0 false]) (load genreBox 0)
  = handleIntersection [mkEntry 0 false]
      (handleIntersection [mkEntry 0 true] (load genreBox 0)).2.
Proof. apply (proj2 batches_compose). Defined.

Lemma hero_reveals_all_witness :
  exists q,
    run [Advance 200; Fire 0; Fire 0] (load heroPage 0) = Some q
    /\ timers q = []
    /\ revealed q 1 = true /\ revealed q 2 = true.
Proof.
  destruct (hero_reveals_all heroPage 0) as (q & Hrun & Hts & Hrev & _).
  exists q. split; [exact Hrun|]. split; [exact Hts|].
  split; apply Hrev.
  - change (1%nat ∈ [1; 2]%nat). constructor.
  - change (2%nat ∈ [1; 2]%nat). constructor. constructor.
Defined.

Lemma clicks_do_not_disturb_reveals_witness :
  exists q q',
    run [Click 0; Intersect 0 true; Click 0; Notify] (load genreBox 0) = Some q
    /\ run [Intersect 0 true; Notify] (load genreBox 0) = Some q'
    /\ core q' = core q.
Proof.
  eexists.
  destruct (proj2 (proj2 clicks_do_not_disturb_reveals)
              [Click 0; Intersect 0 true; Click 0; Notify] (load genreBox 0) _ eq_refl)
    as (q' & Hrun & Hcore).
  exists q'. split; [reflexivity|]. split; [exact Hrun|exact Hcore].
Defined.

Lemma observed_element_can_be_revealed_witness :
  exists (rest : list Event) (q : Page),
    run (Intersect 0 true :: Notify :: rest) (load genreBox 0) = Some q
    /\ revealed q 0 = true.
Proof.
  destruct (observed_element_can_be_revealed (load genreBox 0) 0)
    as (rest & q & Hrun & Hrev & _).
  - change (0%nat ∈ [0%nat]). constructor.
  - change (0 < 1)%nat. lia.
  - exists rest, q. auto.
Defined.


(** * The notification that carries the first qualifying entry *)

(** Within the range of the timeouts that the host keeps, the delay of
    the model is the delay of the host. *)
Lemma effectiveDelay_hostDelay (z : Z) :
  - 2147483648 <= z <= maxTimeout ->
  effectiveDelay (Num z) = hostDelay (Num z).
Proof.
  unfold maxTimeout. intros Hz. cbn. unfold toLong. f_equal.
  destruct (Z_lt_le_dec z 0) as [Hneg|Hpos].
  - replace (z mod 4294967296) with (z + 4294967296)
      by (apply Z.mod_unique with (q := -1); lia).
    destruct (Z.ltb_spec (z + 4294967296) 2147483648); lia.
  - rewrite Z.mod_small by lia.
    destruct (Z.ltb_spec z 2147483648); lia.
Qed.

(** A batch with a qualifying entry for an element without delay reveals
    the element. *)
Lemma handleIntersection_reveals_now (entries : list Entry) (p : Page) (e : nat) :
  (e < length (document p))%nat ->
  attributeOf (document p) e "data-delay" = None ->
  (0 < qualifying e entries)%nat ->
  revealed (handleIntersection entries p).2 e = true.
Proof.
  revert p. induction entries as [|entry entries IH]; intros p Hlt Ha Hq.
  - cbn in Hq. lia.
  - rewrite handleIntersection_cons. rewrite qualifying_cons in Hq.
    destruct (bool_decide_reflect (target entry = e /\ isIntersecting entry = true))
      as [[Ht Hb]|Hno].
    + unfold revealed. apply handleIntersection_grows.
      destruct entry as [tg b]. cbn in Ht, Hb. subst tg b.
      rewrite (processEntry_immediate _ _ Ha). cbn.
      now apply hasClass_alter_same.
    + apply IH.
      * now rewrite processEntry_length.
      * now rewrite processEntry_attributes.
      * lia.
Qed.

(** A batch with a qualifying entry for an element with a delay sets the
    timer of that delay, counted from the time of the batch. *)
Lemma handleIntersection_sets_timer (entries : list Entry) (p : Page) (e : nat) (s : string) :
  attributeOf (document p) e "data-delay" = Some s ->
  (0 < qualifying e entries)%nat ->
  exists i,
    timers (handleIntersection entries p).2 !! i =
    Some (mkTimer (DelayedReveal e) (times (parseInt s) (Num 300))
                  (now p + effectiveDelay (times (parseInt s) (Num 300)))).
Proof.
  revert p. induction entries as [|entry entries IH]; intros p Ha Hq.
  - cbn in Hq. lia.
  - rewrite handleIntersection_cons. rewrite qualifying_cons in Hq.
    destruct (bool_decide_reflect (target entry = e /\ isIntersecting entry = true))
      as [[Ht Hb]|Hno].
    + destruct entry as [tg b]. cbn in Ht, Hb. subst tg b.
      destruct (handleIntersection_appends entries
                  (processEntry (mkEntry e true) p).2) as [new Hnew].
      exists (length (timers p)). rewrite Hnew.
      apply lookup_app_l_Some.
      rewrite (processEntry_delayed _ _ _ Ha). cbn.
      now rewrite lookup_app_r, Nat.sub_diag by lia.
    + destruct (IH (processEntry entry p).2) as [i Hi].
      * now rewrite processEntry_attributes.
      * lia.
      * exists i. rewrite Hi.
        now destruct (processEntry_queue entry p) as (_ & -> & _).
Qed.

Section FirstNotification.
Context `{SelectorEngine}.

(** What the notification of a queue with a qualifying entry for [e]
    does, for an element with a [data-delay]. *)
Lemma notify_delayed (p : Page) (e : nat) (s : string) :
  attributeOf (document p) e "data-delay" = Some s ->
  (0 < qualifying e (queuedEntries p))%nat ->
  exists (p' : Page) (i : nat),
    step Notify p = Some p'
    /\ outputs p' = outputs p
    /\ now p' = now p
    /\ document p' !! e = document p !! e
    /\ (e ∉ observationTargets p')
    /\ timers p' !! i =
       Some (mkTimer (DelayedReveal e) (times (parseInt s) (Num 300))
                     (now p + effectiveDelay (times (parseInt s) (Num 300)))).
Proof.
  intros Ha Hq.
  assert (Hne : queuedEntries p ≠ []).
  { intros Hnil. rewrite Hnil in Hq. cbn in Hq. lia. }
  destruct (handleIntersection_sets_timer (queuedEntries p) (withQueue [] p) e s Ha Hq)
    as [i Hi].
  destruct (handleIntersection_queue (queuedEntries p) (withQueue [] p))
    as (_ & Hnow & Hout & _).
  exists (handleIntersection (queuedEntries p) (withQueue [] p)).2, i.
  split; [now apply step_Notify_some|].
  split; [exact Hout|]. split; [exact Hnow|].
  split; [exact (handleIntersection_delayed_node _ (withQueue [] p) e s Ha)|].
  split; [now apply handleIntersection_unobserves|exact Hi].
Qed.

End FirstNotification.

(** C3. For an element of the document with no [data-delay] attribute,
    the callback reveals it in the course of any batch that holds an
    intersecting entry for it: it returns normally, the element is
    revealed when it returns, the clock has not moved and no timer was
    set for the element.  So the notification that delivers such a queue
    can be taken, and when it is over the element is revealed, at the
    same time, with no timer among the new ones that would reveal it, and
    it is no longer observed. *)
Theorem immediate_reveal `{SelectorEngine} (p : Page) (element : nat) :
  (element < length (document p))%nat ->
  attributeOf (document p) element "data-delay" = None ->
  (forall entries : list Entry,
     (0 < qualifying element entries)%nat ->
     (handleIntersection entries p).1 = Normal tt
     /\ revealed (handleIntersection entries p).2 element = true
     /\ now (handleIntersection entries p).2 = now p
     /\ delayedFor element (timers (handleIntersection entries p).2)
        = delayedFor element (timers p))
  /\ ((0 < qualifying element (queuedEntries p))%nat ->
      exists p' : Page,
        step Notify p = Some p'
        /\ revealed p' element = true
        /\ now p' = now p
        /\ (exists new, timers p' = timers p ++ new
              /\ Forall (fun t => reveals (handler t) ≠ element) new)
        /\ (element ∉ observationTargets p')).
Proof.
  intros Hlt Ha. split.
  - intros entries Hq.
    split; [apply handleIntersection_normal|].
    split; [now apply handleIntersection_reveals_now|].
    split; [now destruct (handleIntersection_queue entries p) as (_ & -> & _)|].
    rewrite handleIntersection_delayedFor, Ha. lia.
  - intros Hq.
    assert (Hne : queuedEntries p ≠ []).
    { intros Hnil. rewrite Hnil in Hq. cbn in Hq. lia. }
    exists (handleIntersection (queuedEntries p) (withQueue [] p)).2.
    split; [now apply step_Notify_some|].
    split; [now apply (handleIntersection_reveals_now _ (withQueue [] p))|].
    split.
    { now destruct (handleIntersection_queue (queuedEntries p) (withQueue [] p))
        as (_ & -> & _). }
    split; [|now apply handleIntersection_unobserves].
    destruct (handleIntersection_new_timers (queuedEntries p) (withQueue [] p))
      as (new & Hnew & Hall).
    exists new. split; [exact Hnew|].
    eapply Forall_impl; [exact Hall|]. cbn.
    intros t (s & Hs & _) He. rewrite He in Hs.
    change (document (withQueue [] p)) with (document p) in Hs. congruence.
Qed.

(** C10. When the [data-delay] attribute of an element is there but does
    not read as an integer, the notification that delivers a queue with
    an intersecting entry for it can be taken and nothing is thrown: the
    callback does not reveal the element itself, it leaves a timer for
    it whose delay is [NaN], which the host runs as a delay of 0.  The
    timer is due at once: it can run right after the notification, with
    the clock where it was, and whenever it runs the element is
    revealed. *)
Theorem unparsable_delay_is_zero `{SelectorEngine}
    (p : Page) (element : nat) (s : string) :
  attributeOf (document p) element "data-delay" = Some s ->
  parseInt s = NaN ->
  (0 < qualifying element (queuedEntries p))%nat ->
  let t := mkTimer (DelayedReveal element) NaN (now p) in
  exists (p' : Page) (i : nat),
    step Notify p = Some p'
    /\ outputs p' = outputs p
    /\ document p' !! element = document p !! element
    /\ timers p' !! i = Some t
    /\ (exists q, run [Notify; Fire i] p = Some q
          /\ now q = now p
          /\ ((element < length (document p))%nat -> revealed q element = true))
    /\ (forall (q : Page) (j : nat),
          timers q !! j = Some t -> now p <= now q ->
          exists q', step (Fire j) q = Some q'
            /\ ((element < length (document q))%nat -> revealed q' element = true)).
Proof.
  intros Ha Hd Hq t.
  destruct (notify_delayed p element s Ha Hq)
    as (p' & i & Hstep & Hout & Hnow & Hdoc & _ & Hi).
  rewrite Hd in Hi. cbn [times effectiveDelay] in Hi. rewrite Z.add_0_r in Hi.
  fold t in Hi.
  exists p', i. split; [exact Hstep|]. split; [exact Hout|].
  split; [exact Hdoc|]. split; [exact Hi|]. split.
  - assert (Hdue : due t <= now p') by (rewrite Hnow; cbn; lia).
    eexists. split; [|split].
    + cbn [run]. rewrite Hstep. now rewrite (step_Fire_due p' i t Hi Hdue).
    + cbn. exact Hnow.
    + intros Hlt. unfold revealed. cbn. apply hasClass_alter_same.
      assert (Hl : length (document p') = length (document p)).
      { apply step_Notify_inv in Hstep as [_ ->].
        apply (handleIntersection_length _ (withQueue [] p)). }
      now rewrite Hl.
  - intros q j Ht Hge. eexists. split.
    + apply (step_Fire_due q j t Ht). cbn. lia.
    + intros Hlt. unfold revealed. cbn. now apply hasClass_alter_same.
Qed.

(** C1, as stated, fails.  On [delayedHero] the paragraph has a
    [data-delay] of 5 and is also a hero element.  Its qualifying entry
    is delivered at time 0, which sets its timer for 1500 ms; the hero
    timer then reveals it, still at time 0, with the timer of 1500 ms
    pending. *)
Lemma hero_overlap_revealed_before_delay :
  attributeOf delayedHero 1 "data-delay" = Some "5"
  /\ hasClass delayedHero 1 "visible" = false
  /\ seenAt 1 [Intersect 1 true; Notify; Fire 0] (load delayedHero 0) = Some 0
  /\ option_map (fun p => (revealed p 1, now p, timers p))
       (run [Intersect 1 true; Notify; Fire 0] (load delayedHero 0))
     = Some (true, 0, [mkTimer (DelayedReveal 1) (Num 1500) 1500]).
Proof. repeat split. Qed.

(** C1, amended.  Take an element whose [data-delay] reads as an integer
    [d] with [d * 300] between 0 and [maxTimeout].  The notification that
    delivers a queue with an intersecting entry for it can be taken; it
    does not reveal the element, and it leaves a timer for it with a
    delay of exactly [d * 300] ms; that timer cannot run before
    [d * 300] ms have passed since the notification, and when it runs it
    is removed and the element is revealed.  If, besides, the element is
    not a hero element and starts without ['visible'], then along any run
    from page-ready it is not revealed before [d * 300] ms have passed
    since the first notification that carried an intersecting entry for
    it. *)
Theorem delayed_reveal_after_delay `{SelectorEngine} :
  (forall (p : Page) (element : nat) (s : string) (d : Z),
     attributeOf (document p) element "data-delay" = Some s ->
     parseInt s = Num d ->
     0 <= d * 300 <= maxTimeout ->
     (0 < qualifying element (queuedEntries p))%nat ->
     let t := mkTimer (DelayedReveal element) (Num (d * 300)) (now p + d * 300) in
     exists (p' : Page) (i : nat),
       step Notify p = Some p'
       /\ document p' !! element = document p !! element
       /\ timers p' !! i = Some t
       /\ hostDelay (Num (d * 300)) = d * 300
       /\ (forall (q : Page) (j : nat),
             timers q !! j = Some t -> now q < now p + d * 300 ->
             step (Fire j) q = None)
       /\ (forall (q q' : Page) (j : nat),
             timers q !! j = Some t -> step (Fire j) q = Some q' ->
             now p + d * 300 <= now q'
             /\ timers q' = delete j (timers q)
             /\ ((element < length (document q))%nat -> revealed q' element = true)))
  /\ (forall (doc : Document) (t0 : Z) (evs : list Event) (p : Page)
             (element : nat) (s : string) (d : Z),
        element ∉ selectAll doc heroSelector ->
        hasClass doc element "visible" = false ->
        attributeOf doc element "data-delay" = Some s ->
        parseInt s = Num d ->
        0 <= d * 300 <= maxTimeout ->
        run evs (load doc t0) = Some p ->
        revealed p element = true ->
        exists T, seenAt element evs (load doc t0) = Some T
                  /\ T + d * 300 <= now p).
Proof.
  split.
  - intros p element s d Ha Hd Hrange Hq t.
    destruct (notify_delayed p element s Ha Hq)
      as (p' & i & Hstep & _ & _ & Hdoc & _ & Hi).
    rewrite Hd in Hi. cbn [times effectiveDelay] in Hi.
    rewrite Z.max_r in Hi by lia. fold t in Hi.
    exists p', i. split; [exact Hstep|]. split; [exact Hdoc|].
    split; [exact Hi|]. split.
    { rewrite <- effectiveDelay_hostDelay by (unfold maxTimeout in *; lia).
      cbn. lia. }
    split.
    + intros q j Ht Hearly. apply (step_Fire_early q j t Ht). cbn. lia.
    + intros q q' j Ht Hfire.
      destruct (step_Fire_inv _ _ _ Hfire) as (t' & Ht' & Hdue & ->).
      rewrite Ht in Ht'. injection Ht' as <-. cbn in Hdue.
      split; [cbn; lia|]. split; [reflexivity|].
      intros Hlt. unfold revealed. cbn. now apply hasClass_alter_same.
  - intros doc t0 evs p element s d Hhero Hhid Hs Hd Hrange Hrun Hrev.
    destruct (untouched_load doc t0 element Hhero) as (Hdoc & Htm & _).
    destruct (revealed_after_delay doc element evs (load doc t0) p
                Hhid Hdoc Htm Hrun Hrev) as (T & Hseen & Hlate).
    exists T. split; [exact Hseen|].
    unfold delayOf in Hlate. rewrite Hs, Hd in Hlate. cbn in Hlate. lia.
Qed.

(** * Clicks of the user *)

Lemma onlyReveals_parent (doc doc' : Document) (x : nat) :
  onlyReveals doc doc' ->
  doc' !! x ≫= parentNode = doc !! x ≫= parentNode.
Proof.
  intros [Hlen Hnodes]. destruct (doc !! x) as [n|] eqn:Hn.
  - destruct (Hnodes x n Hn) as [-> | ->]; reflexivity.
  - apply lookup_ge_None in Hn. rewrite <- Hlen in Hn.
    apply lookup_ge_None in Hn. now rewrite Hn.
Qed.

Lemma onlyReveals_ancestors (doc doc' : Document) (fuel x : nat) :
  onlyReveals doc doc' -> ancestors doc' fuel x = ancestors doc fuel x.
Proof.
  intros Hrev. revert x. induction fuel as [|fuel IH]; intros x; [reflexivity|].
  cbn [ancestors]. rewrite (onlyReveals_parent doc doc' x Hrev).
  destruct (doc !! x ≫= parentNode) as [parent|]; [|reflexivity].
  now rewrite IH.
Qed.

Lemma onlyReveals_path (doc doc' : Document) (x : nat) :
  onlyReveals doc doc' -> propagationPath doc' x = propagationPath doc x.
Proof.
  intros Hrev. unfold propagationPath.
  destruct Hrev as [Hlen Hnodes]. rewrite Hlen.
  now rewrite (onlyReveals_ancestors doc doc' _ x (conj Hlen Hnodes)).
Qed.

Lemma filter_none (nav ls : list nat) :
  Forall (fun l => l ∉ nav) ls -> filter (fun l => l ∈ nav) ls = [].
Proof.
  induction 1 as [|l ls Hl _ IH]; [reflexivity|].
  rewrite filter_cons, decide_False by exact Hl. exact IH.
Qed.

Section Bubbling.
Context `{SelectorEngine}.

(** The click event going through the elements [ls] runs the listener of
    each of them that has one, in that order. *)
Lemma run_clicks (nav ls : list nat) (p : Page) :
  NoDup nav ->
  clickListeners p = nav ->
  Forall (fun a => (a < length (document p))%nat) ls ->
  run (map Click ls) p =
  Some (fold_left (fun q l => dispatch (onClick l) q)
                  (filter (fun l => l ∈ nav) ls) p).
Proof.
  intros Hnd. revert p. induction ls as [|l ls IH]; intros p Hcl Hall.
  - reflexivity.
  - inversion Hall as [|? ? Hl Hrest]; subst.
    cbn [map run step]. rewrite bool_decide_true by exact Hl.
    rewrite filter_cons. destruct (decide (l ∈ clickListeners p)) as [Hin|Hout].
    + rewrite (filter_eq_NoDup _ _ Hnd Hin). cbn [fold_left].
      pose proof (dispatch_onClick_core l p) as Hcore.
      apply core_eq in Hcore as (Hd & _ & _ & _ & _).
      pose proof (dispatch_onClick_core l p) as Hcore2.
      unfold core in Hcore2. injection Hcore2 as _ _ _ _ _ Hc.
      apply IH; [exact Hc|now rewrite Hd].
    + rewrite (filter_eq_absent _ _ Hout). cbn [fold_left].
      now apply IH.
Qed.

End Bubbling.

(** X7. A click of the user, at any point of any run.  The event goes up
    from the element clicked through its ancestors, a path that the
    script never changes, and runs the listener of each [a] element
    whose [href] starts with [#] that it meets, once each, innermost
    first: so a click on a span inside such a link runs the link's
    listener.  When neither the element nor any of its ancestors is such
    a link, the click changes nothing.  The [href] that a listener reads
    is still there and still starts with [#]. *)
Theorem click_runs_listener_once `{SelectorEngine}
    (doc : Document) (t0 : Z) (evs : list Event) (p : Page) (x : nat) :
  run evs (load doc t0) = Some p ->
  propagationPath (document p) x = propagationPath doc x
  /\ run (userClick (document p) x) p =
     Some (fold_left (fun q l => dispatch (onClick l) q)
             (filter (fun l => l ∈ selectAll doc navLinkSelector)
                     (propagationPath doc x)) p)
  /\ (Forall (fun l => l ∉ selectAll doc navLinkSelector) (propagationPath doc x) ->
      run (userClick (document p) x) p = Some p)
  /\ (forall link : nat,
        link ∈ selectAll doc navLinkSelector ->
        step (Click link) p = Some (dispatch (onClick link) p)
        /\ exists v, attributeOf (document p) link "href" = Some v
                     /\ String.prefix "#" v = true).
Proof.
  intros Hrun.
  pose proof (run_clickListeners _ _ _ Hrun) as Hcl.
  pose proof (run_onlyReveals _ _ _ Hrun) as Hrev.
  rewrite load_eq in Hcl, Hrev. cbn [clickListeners document] in Hcl, Hrev.
  assert (Hlen : length (document p) = length doc) by apply Hrev.
  pose proof (onlyReveals_path doc (document p) x Hrev) as Hpath.
  assert (Hall : Forall (fun a => (a < length (document p))%nat) (propagationPath doc x)).
  { apply Forall_forall. intros a Ha. unfold propagationPath in Ha.
    apply list_elem_of_filter in Ha as [Ha _]. now rewrite Hlen. }
  assert (Hgo : run (userClick (document p) x) p =
                Some (fold_left (fun q l => dispatch (onClick l) q)
                        (filter (fun l => l ∈ selectAll doc navLinkSelector)
                                (propagationPath doc x)) p)).
  { unfold userClick. rewrite Hpath.
    apply run_clicks; [apply selectAll_NoDup|exact Hcl|exact Hall]. }
  split; [exact Hpath|]. split; [exact Hgo|]. split.
  - intros Hnone. rewrite Hgo. now rewrite (filter_none _ _ Hnone).
  - intros link Hin. split.
    + cbn [step]. rewrite Hlen, Hcl.
      rewrite bool_decide_true by (eapply selectAll_lt; eauto).
      now rewrite (filter_eq_NoDup _ _ (selectAll_NoDup _ _) Hin).
    + apply navLink_iff in Hin as (n & v & Hn & _ & Hv & Hp).
      exists v. split; [|exact Hp].
      rewrite (onlyReveals_attributeOf _ _ link "href" Hrev).
      unfold attributeOf. now rewrite Hn.
Qed.

(** * Delays, within the range of the host *)

(** X9. A delay index written in decimal digits counts for its value,
    as long as 300 times the value is a timeout that the host keeps: the
    notification that delivers an intersecting entry for the element
    leaves a timer with a delay of exactly 300 ms times the value, due
    that long after the notification.  Written with a minus sign it gives
    a negative delay, which the host runs as a delay of 0: the timer is
    due at once. *)
Theorem decimal_delay_index `{SelectorEngine}
    (p : Page) (element : nat) (ds : list Z) :
  ds ≠ [] ->
  Forall (fun d => 0 <= d <= 9) ds ->
  (0 < qualifying element (queuedEntries p))%nat ->
  (attributeOf (document p) element "data-delay" = Some (numeral ds) ->
   valueOf 10 ds * 300 <= maxTimeout ->
   exists (p' : Page) (i : nat),
     step Notify p = Some p'
     /\ timers p' !! i =
        Some (mkTimer (DelayedReveal element) (Num (valueOf 10 ds * 300))
                      (now p + valueOf 10 ds * 300))
     /\ hostDelay (Num (valueOf 10 ds * 300)) = valueOf 10 ds * 300)
  /\ (attributeOf (document p) element "data-delay" = Some (String "-" (numeral ds)) ->
      valueOf 10 ds * 300 <= maxTimeout + 1 ->
      exists (p' : Page) (i : nat),
        step Notify p = Some p'
        /\ timers p' !! i =
           Some (mkTimer (DelayedReveal element) (Num (- valueOf 10 ds * 300)) (now p))
        /\ hostDelay (Num (- valueOf 10 ds * 300)) = 0).
Proof.
  intros Hne Hall Hq.
  assert (Hpos : 0 <= valueOf 10 ds) by (apply valueOf_from; auto; lia).
  unfold maxTimeout. split; intros Ha Hrange.
  - destruct (notify_delayed p element _ Ha Hq)
      as (p' & i & Hstep & _ & _ & _ & _ & Hi).
    rewrite (parseInt_numeral ds Hne Hall) in Hi. cbn [times effectiveDelay] in Hi.
    rewrite Z.max_r in Hi by lia.
    exists p', i. split; [exact Hstep|]. split; [exact Hi|].
    rewrite <- effectiveDelay_hostDelay by (unfold maxTimeout; lia).
    cbn. lia.
  - destruct (notify_delayed p element _ Ha Hq)
      as (p' & i & Hstep & _ & _ & _ & _ & Hi).
    rewrite (parseInt_minus_numeral ds Hne Hall) in Hi.
    cbn [times effectiveDelay] in Hi.
    rewrite Z.max_l, Z.add_0_r in Hi by lia.
    exists p', i. split; [exact Hstep|]. split; [exact Hi|].
    rewrite <- effectiveDelay_hostDelay by (unfold maxTimeout; lia).
    cbn. lia.
Qed.

Lemma effectiveDelay_nonneg (delay : Number) : 0 <= effectiveDelay delay.
Proof. destruct delay; cbn; lia. Qed.

(** X11. The reveal, seen from the element.  Take an element that is not
    a hero element and starts without ['visible'].  If it is revealed at
    the end of a run from page-ready, then a notification carried an
    intersecting entry for it, no later than now; and when its
    [data-delay] reads as an integer [d] with [d * 300] between 0 and
    [maxTimeout], at least [d * 300] ms have passed since the first such
    notification. *)
Theorem revealed_element_was_seen `{SelectorEngine}
    (doc : Document) (t0 : Z) (evs : list Event) (p : Page) (e : nat) :
  e ∉ selectAll doc heroSelector ->
  hasClass doc e "visible" = false ->
  run evs (load doc t0) = Some p ->
  revealed p e = true ->
  exists T,
    seenAt e evs (load doc t0) = Some T
    /\ T <= now p
    /\ (forall (s : string) (d : Z),
          attributeOf doc e "data-delay" = Some s -> parseInt s = Num d ->
          0 <= d * 300 <= maxTimeout ->
          T + d * 300 <= now p).
Proof.
  intros Hhero Hhid Hrun Hrev.
  destruct (untouched_load doc t0 e Hhero) as (Hdoc & Htm & _).
  destruct (revealed_after_delay doc e evs (load doc t0) p
              Hhid Hdoc Htm Hrun Hrev) as (T & Hseen & Hlate).
  exists T. split; [exact Hseen|]. split.
  - assert (0 <= delayOf doc e).
    { unfold delayOf. destruct (attributeOf doc e "data-delay");
        [apply effectiveDelay_nonneg|lia]. }
    lia.
  - intros s d Hs Hd Hrange. unfold delayOf in Hlate. rewrite Hs, Hd in Hlate.
    cbn in Hlate. lia.
Qed.

(** * Worked examples, the first notification *)

(** A click on the span inside the link prevents the default and scrolls
    to the link's target. *)
Example click_on_span_in_link :
  option_map outputs (run (userClick spanInLink 1) (load spanInLink 0))
  = Some [DefaultPrevented 0; ScrolledIntoView 2 "smooth" "start"].
Proof. reflexivity. Qed.

Lemma immediate_reveal_witness :
  exists p',
    step Notify (withQueue [mkEntry 0 true] (load plainBox 0)) = Some p'
    /\ revealed p' 0 = true.
Proof.
  destruct (proj2 (immediate_reveal
              (withQueue [mkEntry 0 true] (load plainBox 0)) 0
              ltac:(change (0 < 1)%nat; lia) eq_refl))
    as (p' & Hstep & Hrev & _).
  - change (0 < 1)%nat. lia.
  - exists p'. split; assumption.
Defined.

Lemma unparsable_delay_is_zero_witness :
  parseInt "soon" = NaN
  /\ exists p' i,
       step Notify (withQueue [mkEntry 0 true] (load oddBox 7)) = Some p'
       /\ timers p' !! i = Some (mkTimer (DelayedReveal 0) NaN 7).
Proof.
  split; [reflexivity|].
  destruct (unparsable_delay_is_zero
              (withQueue [mkEntry 0 true] (load oddBox 7)) 0 "soon" eq_refl eq_refl)
    as (p' & i & Hstep & _ & _ & Hi & _).
  - change (0 < 1)%nat. lia.
  - exists p', i. split; assumption.
Defined.

Lemma delayed_reveal_after_delay_witness :
  (exists p' i,
     step Notify (withQueue [mkEntry 0 true] (load genreBox 0)) = Some p'
     /\ timers p' !! i = Some (mkTimer (DelayedReveal 0) (Num 300) 300))
  /\ (exists T,
        seenAt 0 [Intersect 0 true; Advance 40; Notify; Advance 300; Fire 0]
               (load genreBox 0) = Some T
        /\ T + 300 <= 340).
Proof.
  split.
  - destruct (proj1 delayed_reveal_after_delay
                (withQueue [mkEntry 0 true] (load genreBox 0)) 0%nat "1" 1
                eq_refl eq_refl)
      as (p' & i & Hstep & _ & Hi & _).
    + unfold maxTimeout. lia.
    + change (0 < 1)%nat. lia.
    + exists p', i. split; assumption.
  - destruct (proj2 delayed_reveal_after_delay genreBox 0
                [Intersect 0 true; Advance 40; Notify; Advance 300; Fire 0]
                (mkPage [addClass "visible"
                           (mkNode "div" None [("data-delay", "1")] ["scroll-fade"])]
                        [] [] [] 340
                        [HeroFadeIn; ObserveScrollFade; SmoothScrollLinks] [] [])
                0%nat "1" 1)
      as (T & Hseen & Hlate).
    + intros Hin. inversion Hin.
    + reflexivity.
    + reflexivity.
    + reflexivity.
    + unfold maxTimeout. lia.
    + reflexivity.
    + reflexivity.
    + exists T. split; assumption.
Defined.

Lemma click_runs_listener_once_witness :
  run (userClick (document (load spanInLink 0)) 1) (load spanInLink 0)
  = Some (dispatch (onClick 0) (load spanInLink 0)).
Proof.
  exact (proj1 (proj2 (click_runs_listener_once spanInLink 0 [] _ 1 eq_refl))).
Defined.

Lemma decimal_delay_index_witness :
  numeral [1] = "1"
  /\ exists p' i,
       step Notify (withQueue [mkEntry 0 true] (load genreBox 5)) = Some p'
       /\ timers p' !! i = Some (mkTimer (DelayedReveal 0) (Num 300) 305).
Proof.
  split; [reflexivity|].
  destruct (proj1 (decimal_delay_index
              (withQueue [mkEntry 0 true] (load genreBox 5)) 0 [1]
              ltac:(discriminate)
              ltac:(constructor; [lia|constructor])
              ltac:(change (0 < 1)%nat; lia))
              eq_refl ltac:(unfold maxTimeout; cbn; lia))
    as (p' & i & Hstep & Hi & _).
  exists p', i. split; assumption.
Defined.

Lemma revealed_element_was_seen_witness :
  exists T,
    seenAt 0 [Intersect 0 true; Advance 40; Notify; Advance 300; Fire 0]
           (load genreBox 0) = Some T
    /\ T + 300 <= 340.
Proof.
  destruct (revealed_element_was_seen genreBox 0
              [Intersect 0 true; Advance 40; Notify; Advance 300; Fire 0]
              (mkPage [addClass "visible" (mkNode "div" None [("data-delay", "1")] ["scroll-fade"])]
                      [] [] [] 340
                      [HeroFadeIn; ObserveScrollFade; SmoothScrollLinks] [] [])
              0)
    as (T & Hseen & _ & Hlate).
  - intros Hin. inversion Hin.
  - reflexivity.
  - reflexivity.
  - reflexivity.
  - exists T. split; [exact Hseen|].
    apply (Hlate "1" 1); [reflexivity|reflexivity|unfold maxTimeout; lia].
Defined.
